(** * Regex-builder: the pattern-testing and editing engine

    A shallow embedding of the driving logic of the Regex Builder web
    tool: the flag codec ([src/lib/regex-utils.ts]), the match loop and
    the highlight renderer ([TestArea]), the undo/redo history
    ([RegexEditor] together with [App]) and the user pattern store
    ([PatternLibrary]).

    JavaScript strings are modelled by [string]; indices and lengths are
    natural numbers.  The characters of [string] are single units, which
    covers text without surrogate pairs; the match loop on text with such
    pairs, where the [u] flag changes the way the host searches, is
    modelled apart over sequences of 16-bit code units.  React state is
    threaded explicitly: every handler is a function from the component
    state to the next one. *)

From Stdlib Require Import Ascii String.
From stdpp Require Import base list strings pretty.

Local Open Scope nat_scope.

(* ===================================================================== *)
(** * Part I: definitions                                                *)
(* ===================================================================== *)

(** ** JavaScript string helpers *)

(** [!s] on a string: the empty string is the only falsy one. *)
Definition falsy (s : string) : bool :=
  match s with
  | EmptyString => true
  | String _ _ => false
  end.

(** [s.includes(t)]: [t] occurs in [s] as a contiguous substring. *)
Fixpoint includes (s t : string) : bool :=
  String.prefix t s ||
  match s with
  | EmptyString => false
  | String _ s' => includes s' t
  end.

(** [s.startsWith(p)]. *)
Definition startsWith (s p : string) : bool := String.prefix p s.

(** [s.substring(a, b)]: both arguments are clamped to the length of [s]
    and swapped when [a > b]. *)
Definition js_substring (s : string) (a b : nat) : string :=
  let a' := a `min` String.length s in
  let b' := b `min` String.length s in
  String.substring (a' `min` b') ((a' `max` b') - (a' `min` b')) s.

(** [s.substring(a)]: up to the end of the string. *)
Definition js_substring_from (s : string) (a : nat) : string :=
  js_substring s a (String.length s).

(** The characters of a string, in order. *)
Abbreviation chars := list_ascii_of_string.

(** ** Flag codec ([regex-utils.ts]) *)

Record RegexFlags := mkFlags {
  global : bool;
  ignoreCase : bool;
  multiline : bool;
  dotAll : bool;
  unicode : bool;
  sticky : bool
}.

Definition flagsToString (flags : RegexFlags) : string :=
  let result := "" in
  let result := if global flags then result +:+ "g" else result in
  let result := if ignoreCase flags then result +:+ "i" else result in
  let result := if multiline flags then result +:+ "m" else result in
  let result := if dotAll flags then result +:+ "s" else result in
  let result := if unicode flags then result +:+ "u" else result in
  let result := if sticky flags then result +:+ "y" else result in
  result.

Definition parseFlags (flagsString : string) : RegexFlags :=
  {| global := includes flagsString "g";
     ignoreCase := includes flagsString "i";
     multiline := includes flagsString "m";
     dotAll := includes flagsString "s";
     unicode := includes flagsString "u";
     sticky := includes flagsString "y" |}.

(** The six flag codes in the order [flagsToString] emits them. *)
Definition canonicalFlags : list ascii :=
  ["g"; "i"; "m"; "s"; "u"; "y"]%char.

(** ** The host matching primitive

    Compilation and matching are delegated to the platform's [RegExp].
    A compiled pattern is a [Matcher]: tried at one position of the text
    it either fails or gives the end of the match and the captures.  The
    host's contract is that a match tried at [i] ends between [i] and the
    end of the text; the host keeps it on text without surrogate pairs,
    and on any text when the [u] flag is off.  A matcher returns: an
    [exec] that throws, as a host may when a search exhausts its stack, is
    left out. *)

Definition Matcher : Type :=
  string -> nat -> option (nat * list (option string)).

Definition matcher_ok (m : Matcher) : Prop :=
  forall s i e caps, m s i = Some (e, caps) -> i <= e <= String.length s.

(** Outcome of an operation that may throw. *)
Inductive completion (A : Type) : Type :=
| Normal (a : A)
| Throw (message : string).
Arguments Normal {A} a.
Arguments Throw {A} message.

(** The injected capability: [compile pattern flagsString]. *)
Record Primitive := {
  compile : string -> string -> completion Matcher
}.

(** Every matcher the primitive compiles honours the contract. *)
Definition primitive_ok (P : Primitive) : Prop :=
  forall pattern flagsStr m,
    compile P pattern flagsStr = Normal m -> matcher_ok m.

(** Calls made to the primitive, in order. *)
Inductive PrimEvent :=
| Compiled (pattern flagsStr : string)
| Executed (text : string) (fromIndex : nat).

(** A [RegExp] object: the compiled matcher, the two flags that govern
    the [lastIndex] protocol, and the mutable [lastIndex]. *)
Record RegExp := mkRegExp {
  re_matcher : Matcher;
  re_global : bool;
  re_sticky : bool;
  lastIndex : nat
}.

Definition set_lastIndex (r : RegExp) (i : nat) : RegExp :=
  {| re_matcher := re_matcher r; re_global := re_global r;
     re_sticky := re_sticky r; lastIndex := i |}.

(** [new RegExp(pattern, flagsStr)]. *)
Definition new_RegExp (P : Primitive) (pattern flagsStr : string)
  : completion RegExp :=
  match compile P pattern flagsStr with
  | Normal m =>
      Normal {| re_matcher := m;
                re_global := includes flagsStr "g";
                re_sticky := includes flagsStr "y";
                lastIndex := 0 |}
  | Throw msg => Throw msg
  end.

(** The array returned by a successful [exec]: [index], element 0 and the
    captures (elements 1 and up). *)
Record ExecResult := {
  res_index : nat;
  res_0 : string;
  res_captures : list (option string)
}.

(** The search of [exec]: try the matcher at [i], [i+1], ... while the
    position does not exceed the length of the text ([n] positions are
    left); a sticky expression tries the first position only.  Strings
    here are made of 8-bit characters, none of which is a surrogate, so
    the position always advances by one unit and the match starts where
    it was tried; [scan16] is the search on text with surrogate pairs. *)
Fixpoint scan (m : Matcher) (stickyFlag : bool) (s : string) (n i : nat)
  : option (nat * (nat * list (option string))) :=
  match n with
  | 0 => None
  | S n' =>
      match m s i with
      | Some r => Some (i, r)
      | None => if stickyFlag then None else scan m stickyFlag s n' (i + 1)
      end
  end.

(** [regex.exec(s)]: the result and the expression with its [lastIndex]
    updated.  Without [g] and [y] the search starts at 0 and [lastIndex] is
    left alone. *)
Definition exec (r : RegExp) (s : string) : option ExecResult * RegExp :=
  let tracked := re_global r || re_sticky r in
  let start := if tracked then lastIndex r else 0 in
  match scan (re_matcher r) (re_sticky r) s (String.length s + 1 - start) start with
  | None => (None, if tracked then set_lastIndex r 0 else r)
  | Some (i, (e, caps)) =>
      (Some {| res_index := i;
               res_0 := String.substring i (e - i) s;
               res_captures := caps |},
       if tracked then set_lastIndex r e else r)
  end.

(** ** Match engine ([TestArea]) *)

Record PatternMatch := {
  text : string;
  startIndex : nat;
  endIndex : nat;
  groups : list (option string)
}.

Definition to_match (m : ExecResult) : PatternMatch :=
  {| text := res_0 m;
     startIndex := res_index m;
     endIndex := res_index m + String.length (res_0 m);
     groups := res_captures m |}.

(** One turn of [while ((match = regex.exec(sampleText)) !== null)]:
    [None] when the loop exits, otherwise the match pushed and the
    expression after the zero-length guard. *)
Definition loop_body (regex : RegExp) (sampleText : string)
  : option PatternMatch * RegExp :=
  match exec regex sampleText with
  | (None, regex') => (None, regex')
  | (Some m, regex') =>
      (Some (to_match m),
       if String.length (res_0 m) =? 0
       then set_lastIndex regex' (lastIndex regex' + 1)
       else regex')
  end.

(** The global loop, bounded by [fuel] turns; [None] when the fuel runs
    out before the loop exits.  The result carries the matches in order of
    discovery and the positions handed to [exec]. *)
Fixpoint match_loop (fuel : nat) (regex : RegExp) (sampleText : string)
    (allMatches : list PatternMatch) (log : list PrimEvent)
  : option (list PatternMatch * list PrimEvent) :=
  match fuel with
  | 0 => None
  | S fuel' =>
      let log' := log ++ [Executed sampleText (lastIndex regex)] in
      match loop_body regex sampleText with
      | (None, _) => Some (allMatches, log')
      | (Some m, regex') =>
          match_loop fuel' regex' sampleText (allMatches ++ [m]) log'
      end
  end.

(** The branch without the global flag: one [exec]. *)
Definition match_once (regex : RegExp) (sampleText : string)
  : list PatternMatch * list PrimEvent :=
  let log := [Executed sampleText (lastIndex regex)] in
  match exec regex sampleText with
  | (Some m, _) => ([to_match m], log)
  | (None, _) => ([], log)
  end.

(** [validateRegex]: [None] is JavaScript's [null]; the second component
    lists the calls to the primitive. *)
Definition validateRegex (P : Primitive) (pattern : string) (flags : RegexFlags)
  : option string * list PrimEvent :=
  if falsy pattern then (None, [])
  else
    let flagsStr := flagsToString flags in
    match new_RegExp P pattern flagsStr with
    | Normal _ => (None, [Compiled pattern flagsStr])
    | Throw msg => (Some msg, [Compiled pattern flagsStr])
    end.

(** State of the [TestArea] component. *)
Record TestAreaState := {
  matches : list PatternMatch;
  executionTime : Z;
  isValid : bool
}.

Definition initialTestArea : TestAreaState :=
  {| matches := []; executionTime := 0; isValid := true |}.

Definition setMatches (st : TestAreaState) (ms : list PatternMatch) :=
  {| matches := ms; executionTime := executionTime st; isValid := isValid st |}.
Definition setExecutionTime (st : TestAreaState) (t : Z) :=
  {| matches := matches st; executionTime := t; isValid := isValid st |}.
Definition setIsValid (st : TestAreaState) (b : bool) :=
  {| matches := matches st; executionTime := executionTime st; isValid := b |}.

(** The inputs captured by a scheduled (debounced) run. *)
Record PendingRun := {
  run_pattern : string;
  run_flags : RegexFlags;
  run_sampleText : string
}.

(** The synchronous part of the matching effect: the new state, the run
    it schedules (if any) and the calls made to the primitive. *)
Definition matchEffect (P : Primitive) (pattern : string) (flags : RegexFlags)
    (sampleText : string) (st : TestAreaState)
  : TestAreaState * option PendingRun * list PrimEvent :=
  if falsy pattern || falsy sampleText then
    (setExecutionTime (setMatches st []) 0, None, [])
  else
    match validateRegex P pattern flags with
    | (Some _, log) => (setMatches (setIsValid st false) [], None, log)
    | (None, log) =>
        (setIsValid st true,
         Some {| run_pattern := pattern; run_flags := flags;
                 run_sampleText := sampleText |},
         log)
    end.

(** The timer callback.  [startTime] and [endTime] are the two readings
    of [performance.now()]; [fuel] bounds the global loop, and [None]
    means the loop did not exit within it.  The [catch] branch is reached
    from [new RegExp] here; the [try] block of the source also covers
    [regex.exec], which does not throw in this model. *)
Definition runPending (P : Primitive) (fuel : nat) (startTime endTime : Z)
    (task : PendingRun) (st : TestAreaState)
  : option (TestAreaState * list PrimEvent) :=
  let flagsStr := flagsToString (run_flags task) in
  let compiled := [Compiled (run_pattern task) flagsStr] in
  match new_RegExp P (run_pattern task) flagsStr with
  | Throw _ => Some (setMatches (setIsValid st false) [], compiled)
  | Normal regex =>
      if global (run_flags task) then
        match match_loop fuel regex (run_sampleText task) [] compiled with
        | None => None
        | Some (allMatches, log) =>
            Some (setExecutionTime (setMatches st allMatches)
                    (endTime - startTime), log)
        end
      else
        let '(allMatches, log) := match_once regex (run_sampleText task) in
        Some (setExecutionTime (setMatches st allMatches)
                (endTime - startTime), compiled ++ log)
  end.

(** ** Highlight renderer ([TestArea]) *)

Inductive SpanKind := Plain | Highlighted.

(** A rendered [<span>]: its React key (the number after [text-] or
    [match-]; the lone span of the degenerate case has none), its kind and
    its text. *)
Record Span := {
  span_key : option nat;
  span_kind : SpanKind;
  span_text : string
}.

(** The body of [matches.forEach((match, index) => ...)], threading the
    pushed [elements] and [lastIndex]. *)
Fixpoint forEach_match (sampleText : string) (ms : list PatternMatch)
    (index : nat) (elements : list Span) (last : nat)
  : list Span * nat :=
  match ms with
  | [] => (elements, last)
  | m :: rest =>
      let elements :=
        if last <? startIndex m
        then elements ++
             [{| span_key := Some last; span_kind := Plain;
                 span_text := js_substring sampleText last (startIndex m) |}]
        else elements in
      let elements :=
        elements ++
        [{| span_key := Some index; span_kind := Highlighted;
            span_text := text m |}] in
      forEach_match sampleText rest (S index) elements (endIndex m)
  end.

Definition renderHighlightedText (sampleText : string)
    (ms : list PatternMatch) : list Span :=
  if falsy sampleText || (length ms =? 0) then
    [{| span_key := None; span_kind := Plain; span_text := sampleText |}]
  else
    let '(elements, last) := forEach_match sampleText ms 0 [] 0 in
    if last <? String.length sampleText
    then elements ++
         [{| span_key := Some last; span_kind := Plain;
             span_text := js_substring_from sampleText last |}]
    else elements.

#[global] Instance SpanKind_eq_dec : EqDecision SpanKind.
Proof. solve_decision. Defined.

(** The texts of the highlighted spans, in order. *)
Definition highlighted_texts (spans : list Span) : list string :=
  span_text <$> filter (fun sp => span_kind sp = Highlighted) spans.

(** A plain span is not empty. *)
Definition plain_nonempty (sp : Span) : Prop :=
  span_kind sp = Plain -> span_text sp <> "".

(** What the rendered spans display, left to right. *)
Definition rendered_text (spans : list Span) : string :=
  foldr (fun sp acc => span_text sp +:+ acc) "" spans.

(** The invariant of a [Match] of [sampleText] (data model): ordered
    indices inside the text, and [text] the slice between them. *)
Definition match_inv (sampleText : string) (m : PatternMatch) : Prop :=
  startIndex m <= endIndex m <= String.length sampleText /\
  text m = String.substring (startIndex m) (endIndex m - startIndex m) sampleText.

(** Sorted and non-overlapping from position [from] on: each match starts
    at or after the end of the one before it. *)
Fixpoint non_overlapping (from : nat) (ms : list PatternMatch) : Prop :=
  match ms with
  | [] => True
  | m :: rest => from <= startIndex m /\ non_overlapping (endIndex m) rest
  end.

(** ** Cursor-aware editor ([RegexEditor] inside [App]) *)

(** [pattern] is the state of [App], passed down as a prop and set through
    [onPatternChange]; the rest is the state of [RegexEditor]. *)
Record Editor := {
  pattern : string;
  history : list string;
  historyIndex : nat;
  cursorPosition : option (nat * nat)
}.

(** First render: [App] starts with the empty pattern and [RegexEditor]
    seeds its history with it. *)
Definition initialEditor : Editor :=
  {| pattern := ""; history := [""]; historyIndex := 0;
     cursorPosition := None |}.

(** [history[i]] where the code passes it on as a string.  Inside the
    guards of undo and redo the index is in range whenever
    [historyIndex < length history]; out of range JavaScript yields
    [undefined], for which the empty string stands here. *)
Definition history_at (h : list string) (i : nat) : string :=
  default "" (h !! i).

Definition handlePatternChange (value : string) (ed : Editor) : Editor :=
  if bool_decide (history ed !! historyIndex ed = Some value) then
    {| pattern := value; history := history ed;
       historyIndex := historyIndex ed;
       cursorPosition := cursorPosition ed |}
  else
    let newHistory := take (historyIndex ed + 1) (history ed) ++ [value] in
    {| pattern := value; history := newHistory;
       historyIndex := length newHistory - 1;
       cursorPosition := cursorPosition ed |}.

Definition handleInsert (token : string) (ed : Editor) : Editor :=
  let start := from_option fst (String.length (pattern ed)) (cursorPosition ed) in
  let end_ := from_option snd (String.length (pattern ed)) (cursorPosition ed) in
  let currentValue := pattern ed in
  let newValue :=
    js_substring currentValue 0 start +:+ token +:+
    js_substring_from currentValue end_ in
  let ed' := handlePatternChange newValue ed in
  let newCursorPos := start + String.length token in
  {| pattern := pattern ed'; history := history ed';
     historyIndex := historyIndex ed';
     cursorPosition := Some (newCursorPos, newCursorPos) |}.

Definition handleUndo (ed : Editor) : Editor :=
  if 0 <? historyIndex ed then
    let newIndex := historyIndex ed - 1 in
    {| pattern := history_at (history ed) newIndex; history := history ed;
       historyIndex := newIndex; cursorPosition := cursorPosition ed |}
  else ed.

Definition handleRedo (ed : Editor) : Editor :=
  if historyIndex ed <? length (history ed) - 1 then
    let newIndex := historyIndex ed + 1 in
    {| pattern := history_at (history ed) newIndex; history := history ed;
       historyIndex := newIndex; cursorPosition := cursorPosition ed |}
  else ed.

(** [App]'s [onSelectPattern]: the library hands over a pattern and [App]
    calls its own [setPattern]; the editor's handlers are not involved. *)
Definition onSelectPattern (p : string) (ed : Editor) : Editor :=
  {| pattern := p; history := history ed; historyIndex := historyIndex ed;
     cursorPosition := cursorPosition ed |}.

(** The operations that change the pattern. *)
Inductive EditorOp :=
| SetPattern (value : string)
| InsertToken (token : string)
| Undo
| Redo
| SelectFromLibrary (p : string).

Definition editor_step (op : EditorOp) (ed : Editor) : Editor :=
  match op with
  | SetPattern v => handlePatternChange v ed
  | InsertToken t => handleInsert t ed
  | Undo => handleUndo ed
  | Redo => handleRedo ed
  | SelectFromLibrary p => onSelectPattern p ed
  end.

Definition editor_run (ops : list EditorOp) (ed : Editor) : Editor :=
  foldl (fun e op => editor_step op e) ed ops.

(** The two halves of the [EditHistory] invariant. *)
Definition cursor_in_range (ed : Editor) : Prop :=
  historyIndex ed < length (history ed).

Definition cursor_shows_pattern (ed : Editor) : Prop :=
  history ed !! historyIndex ed = Some (pattern ed).

(** ** Pattern library store ([PatternLibrary]) *)

(** JSON values, as [JSON.parse] returns them.  The user set is typed
    [RegexPattern[]] in the source, but what import puts in it comes
    straight from [JSON.parse], so its elements are modelled as JSON
    values. *)
#[warnings="-register-all"]
Inductive json :=
| JNull
| JBool (b : bool)
| JNum (n : Z)
| JStr (s : string)
| JArr (xs : list json)
| JObj (fields : list (string * json)).

(** Lookup of key [k] among the fields of an object. *)
Fixpoint assoc (k : string) (fields : list (string * json)) : option json :=
  match fields with
  | [] => None
  | (k', v) :: rest => if String.eqb k k' then Some v else assoc k rest
  end.

(** [o[k] = v] on the fields of an object: an existing key keeps its
    place, a new key goes last. *)
Fixpoint assign (k : string) (v : json) (fields : list (string * json))
  : list (string * json) :=
  match fields with
  | [] => [(k, v)]
  | (k', v') :: rest =>
      if String.eqb k k' then (k, v) :: rest else (k', v') :: assign k v rest
  end.

(** The property read [v.k] for the keys the store uses ([id], [name],
    ...): the outer [None] is the [TypeError] of reading a property of
    [null], the inner [None] is [undefined]. *)
Definition prop (v : json) (k : string) : option (option json) :=
  match v with
  | JNull => None
  | JObj fields => Some (assoc k fields)
  | _ => Some None
  end.

(** [v.id === s] for a string [s]. *)
Definition id_is (s : string) (v : json) : option bool :=
  match prop v "id" with
  | None => None
  | Some (Some (JStr s')) => Some (String.eqb s' s)
  | Some _ => Some false
  end.

Record RegexPattern := {
  id : string;
  name : string;
  rx_pattern : string;
  description : string;
  category : option string
}.

Definition to_json (p : RegexPattern) : json :=
  JObj ([("id", JStr (id p)); ("name", JStr (name p));
         ("pattern", JStr (rx_pattern p));
         ("description", JStr (description p))] ++
        match category p with
        | Some c => [("category", JStr c)]
        | None => []
        end).

Record FormData := {
  form_name : string;
  form_pattern : string;
  form_description : string;
  form_category : string
}.

Definition emptyForm : FormData :=
  {| form_name := ""; form_pattern := ""; form_description := "";
     form_category := "" |}.

(** State of the [PatternLibrary] component, together with the value
    kept in [localStorage] under [STORAGE_KEY] (the document that
    [JSON.stringify] serialises; [None] when nothing was stored). *)
Record Library := {
  userPatterns : list json;
  isDialogOpen : bool;
  editingPattern : option RegexPattern;
  formData : FormData;
  localStorage : option json
}.

(** The state of the first render, before the effects of the mount have
    run (the save effect then stores the empty array). *)
Definition initialLibrary : Library :=
  {| userPatterns := []; isDialogOpen := false; editingPattern := None;
     formData := emptyForm; localStorage := None |}.

(** [setUserPatterns] followed by the effect that depends on
    [userPatterns]: the new array is written back to storage.  The effect
    runs once the render of the new state has been committed, which is
    taken for granted here; [commit] below is the step with that render,
    which fails for an array that the list cannot display. *)
Definition setUserPatterns (st : Library) (ups : list json) : Library :=
  {| userPatterns := ups; isDialogOpen := isDialogOpen st;
     editingPattern := editingPattern st; formData := formData st;
     localStorage := Some (JArr ups) |}.

Definition setFormData (st : Library) (f : FormData) : Library :=
  {| userPatterns := userPatterns st; isDialogOpen := isDialogOpen st;
     editingPattern := editingPattern st; formData := f;
     localStorage := localStorage st |}.

Definition setEditingPattern (st : Library) (e : option RegexPattern) : Library :=
  {| userPatterns := userPatterns st; isDialogOpen := isDialogOpen st;
     editingPattern := e; formData := formData st;
     localStorage := localStorage st |}.

Definition setIsDialogOpen (st : Library) (b : bool) : Library :=
  {| userPatterns := userPatterns st; isDialogOpen := b;
     editingPattern := editingPattern st; formData := formData st;
     localStorage := localStorage st |}.

(** [allPatterns]: the built-in patterns of [patterns.json] followed by
    the user patterns. *)
Definition allPatterns (patternsData : list json) (st : Library) : list json :=
  patternsData ++ userPatterns st.

(** [formData.category || "Custom"]. *)
Definition category_or_custom (f : FormData) : string :=
  if falsy (form_category f) then "Custom" else form_category f.

(** [{...p, name, pattern, description, category}] for an entry [p].  The
    store applies it only to entries whose [id] is a string, which are
    objects. *)
Definition with_form (f : FormData) (p : json) : json :=
  match p with
  | JObj fields =>
      JObj (assign "category" (JStr (category_or_custom f))
             (assign "description" (JStr (form_description f))
               (assign "pattern" (JStr (form_pattern f))
                 (assign "name" (JStr (form_name f)) fields))))
  | _ => p
  end.

(** [v.id === s], where reading [v.id] does not throw. *)
Definition id_matches (s : string) (v : json) : bool :=
  match id_is s v with
  | Some true => true
  | _ => false
  end.

(** [prev.map((p) => p.id === editingPattern.id ? {...} : p)]; [None]
    when reading [p.id] throws. *)
Definition update_entries (editingId : string) (f : FormData)
    (prev : list json) : option (list json) :=
  mapM (fun p =>
          match id_is editingId p with
          | None => None
          | Some true => Some (with_form f p)
          | Some false => Some p
          end) prev.

(** [prev.filter((p) => p.id !== patternId)]. *)
Definition remove_entries (patternId : string) (prev : list json)
  : option (list json) :=
  foldr (fun p acc =>
           match id_is patternId p, acc with
           | Some true, Some rest => Some rest
           | Some false, Some rest => Some (p :: rest)
           | _, _ => None
           end) (Some []) prev.

(** The handlers below return [None] when the state updater throws (the
    component is then torn down). [now] is the reading of [Date.now()]. *)
Definition handleSavePattern (now : nat) (st : Library) : option Library :=
  let f := formData st in
  if falsy (form_name f) || falsy (form_pattern f) then Some st
  else
    let saved :=
      match editingPattern st with
      | Some ep =>
          match update_entries (id ep) f (userPatterns st) with
          | Some ups => Some (setUserPatterns st ups)
          | None => None
          end
      | None =>
          let newPattern :=
            {| id := "user-" +:+ pretty now;
               name := form_name f;
               rx_pattern := form_pattern f;
               description := form_description f;
               category := Some (category_or_custom f) |} in
          Some (setUserPatterns st (userPatterns st ++ [to_json newPattern]))
      end in
    match saved with
    | Some st' =>
        Some (setIsDialogOpen (setEditingPattern (setFormData st' emptyForm) None) false)
    | None => None
    end.

Definition handleEditPattern (p : RegexPattern) (st : Library) : Library :=
  if negb (startsWith (id p) "user-") then st
  else
    setIsDialogOpen
      (setFormData (setEditingPattern st (Some p))
         {| form_name := name p;
            form_pattern := rx_pattern p;
            form_description := description p;
            form_category := default "" (category p) |})
      true.

Definition handleDeletePattern (patternId : string) (st : Library)
  : option Library :=
  if negb (startsWith patternId "user-") then Some st
  else
    match remove_entries patternId (userPatterns st) with
    | Some ups => Some (setUserPatterns st ups)
    | None => None
    end.



(** [reader.onload] of [handleImportPatterns] (the handler itself returns
    at once when no file was chosen).  [parsed] is the outcome of
    [JSON.parse] on the file's text ([None] when it throws); the second
    component is the alert shown, if any.  The state is the one handed to
    the next render; [importMany] below adds that render. *)
Definition handleImportPatterns (parsed : option json) (st : Library)
  : Library * option string :=
  match parsed with
  | Some (JArr imported) =>
      (setUserPatterns st (userPatterns st ++ imported), None)
  | Some _ => (st, None)
  | None =>
      (st, Some "Failed to import patterns. Please check the file format.")
  end.






(** The shape of a [PatternEntry] record (data model): an object with
    string [id], [name], [pattern] and [description], and a [category]
    that is a string when present. *)
Definition is_string (o : option json) : bool :=
  match o with
  | Some (JStr _) => true
  | _ => false
  end.

Definition entry_shaped (v : json) : bool :=
  match v with
  | JObj fields =>
      is_string (assoc "id" fields) && is_string (assoc "name" fields) &&
      is_string (assoc "pattern" fields) &&
      is_string (assoc "description" fields) &&
      match assoc "category" fields with
      | None | Some (JStr _) => true
      | Some _ => false
      end
  | _ => false
  end.



(** ** A reference primitive for literal patterns

    The host's pattern language restricted to literal characters and
    starred literal characters ([ab*c]); every other pattern, and the
    case-folding flag, is refused.  On this fragment the flags [m], [s]
    and [u] change nothing.  It gives the general results something
    concrete to run on. *)

Inductive Atom :=
| Lit (c : ascii)
| Star (c : ascii).

Definition is_meta (c : ascii) : bool :=
  includes "\^$.|?*+()[]{}" (String c "").

Fixpoint parse_atoms (p : string) : option (list Atom) :=
  match p with
  | EmptyString => Some []
  | String c p' =>
      if is_meta c then None
      else
        match p' with
        | String "*"%char p'' => cons (Star c) <$> parse_atoms p''
        | _ => cons (Lit c) <$> parse_atoms p'
        end
  end.

(** A starred character followed by the continuation [k]: take as many
    copies as possible, giving them back one at a time until [k]
    succeeds. *)
Fixpoint match_star (c : ascii) (k : string -> option nat) (s : string)
  : option nat :=
  match s with
  | String d s' =>
      if Ascii.eqb c d then
        match match_star c k s' with
        | Some n => Some (S n)
        | None => k s
        end
      else k s
  | EmptyString => k s
  end.

(** Matching of [atoms] at the head of [s]: the number of characters
    consumed. *)
Fixpoint match_atoms (atoms : list Atom) (s : string) : option nat :=
  match atoms with
  | [] => Some 0
  | Lit c :: rest =>
      match s with
      | String d s' =>
          if Ascii.eqb c d then S <$> match_atoms rest s' else None
      | EmptyString => None
      end
  | Star c :: rest => match_star c (match_atoms rest) s
  end.

Definition atoms_matcher (atoms : list Atom) : Matcher :=
  fun s i =>
    if i <=? String.length s then
      match match_atoms atoms (String.substring i (String.length s - i) s) with
      | Some n => Some (i + n, [])
      | None => None
      end
    else None.

Definition literalPrimitive : Primitive :=
  {| compile := fun pattern flagsStr =>
       if includes flagsStr "i" then Throw "Unsupported flag"
       else
         match parse_atoms pattern with
         | Some atoms => Normal (atoms_matcher atoms)
         | None => Throw "Invalid regular expression"
         end |}.

(** [x*] compiled with the global flag. *)
Definition x_star_global : RegExp :=
  {| re_matcher := atoms_matcher [Star "x"%char]; re_global := true;
     re_sticky := false; lastIndex := 0 |}.

(** The flag value with only [global] set: the initial flags of [App]. *)
Definition globalOnly : RegexFlags :=
  {| global := true; ignoreCase := false; multiline := false;
     dotAll := false; unicode := false; sticky := false |}.

(** The flag a code character stands for. *)
Definition flag_of_code (f : RegexFlags) (c : ascii) : bool :=
  if Ascii.eqb c "g" then global f
  else if Ascii.eqb c "i" then ignoreCase f
  else if Ascii.eqb c "m" then multiline f
  else if Ascii.eqb c "s" then dotAll f
  else if Ascii.eqb c "u" then unicode f
  else if Ascii.eqb c "y" then sticky f
  else false.

(** ** The debounced session of [TestArea]

    The matching effect together with its timer: a change of the inputs
    runs the cleanup of the previous effect ([clearTimeout]) and then the
    effect, so that at most one run is pending; the timer runs it. *)

Record TestAreaSession := {
  ta_state : TestAreaState;
  ta_pending : option PendingRun
}.

Definition initialSession : TestAreaSession :=
  {| ta_state := initialTestArea; ta_pending := None |}.

(** The inputs of the effect: [pattern], [flags] and [sampleText]. *)
Record Inputs := {
  in_pattern : string;
  in_flags : RegexFlags;
  in_sampleText : string
}.

Definition onInputsChange (P : Primitive) (i : Inputs) (s : TestAreaSession)
  : TestAreaSession :=
  let '(st, pending, _) :=
    matchEffect P (in_pattern i) (in_flags i) (in_sampleText i) (ta_state s) in
  {| ta_state := st; ta_pending := pending |}.

(** The timer fires: the pending run, if any, is executed and the slot is
    emptied.  [None] when the loop did not exit within [fuel]. *)
Definition onTimer (P : Primitive) (fuel : nat) (startTime endTime : Z)
    (s : TestAreaSession) : option TestAreaSession :=
  match ta_pending s with
  | None => Some s
  | Some task =>
      match runPending P fuel startTime endTime task (ta_state s) with
      | Some (st, _) => Some {| ta_state := st; ta_pending := None |}
      | None => None
      end
  end.

(** A burst of input changes with no timer firing in between. *)
Definition burst (P : Primitive) (changes : list Inputs) (s : TestAreaSession)
  : TestAreaSession :=
  foldl (fun s i => onInputsChange P i s) s changes.

(** The matches of [ms] start at strictly increasing positions, the first
    one at [from] or later. *)
Fixpoint starts_increase (from : nat) (ms : list PatternMatch) : Prop :=
  match ms with
  | [] => True
  | m :: rest => from <= startIndex m /\ starts_increase (S (startIndex m)) rest
  end.

(** ** More of the editor *)

(** No two neighbouring entries of the history are equal. *)
Fixpoint no_adjacent_duplicates (h : list string) : Prop :=
  match h with
  | a :: (b :: _) as rest => a <> b /\ no_adjacent_duplicates rest
  | _ => True
  end.

(** The part of an [HTMLTextAreaElement] that [insertAtCursor] touches.
    The element keeps its selection inside its value: an offset assigned
    to [selectionStart] or [selectionEnd] beyond the end is clamped to the
    length of the value. *)
Record Textarea := {
  tx_value : string;
  tx_selectionStart : nat;
  tx_selectionEnd : nat;
  tx_focused : bool
}.

(** [insertAtCursor] ([regex-utils.ts]). *)
Definition insertAtCursor (textarea : Textarea) (inserted : string) : Textarea :=
  let start := tx_selectionStart textarea in
  let end_ := tx_selectionEnd textarea in
  let value := tx_value textarea in
  let newValue :=
    js_substring value 0 start +:+ inserted +:+ js_substring_from value end_ in
  let caret := (start + String.length inserted) `min` String.length newValue in
  {| tx_value := newValue; tx_selectionStart := caret;
     tx_selectionEnd := caret; tx_focused := true |}.

(** The caret events of [RegexEditor] (focus, blur, select, change, and
    hover or press of an insert button): the remembered range is read from
    the textarea. *)
Definition rememberCaret (textarea : Textarea) (ed : Editor) : Editor :=
  {| pattern := pattern ed; history := history ed;
     historyIndex := historyIndex ed;
     cursorPosition :=
       Some (tx_selectionStart textarea, tx_selectionEnd textarea) |}.

(** The names of the six flags, as [handleFlagChange] receives them. *)
Inductive FlagName :=
| Fglobal | FignoreCase | Fmultiline | FdotAll | Funicode | Fsticky.

(** [handleFlagChange]: [{ ...flags, [flag]: checked }]. *)
Definition handleFlagChange (flags : RegexFlags) (flag : FlagName)
    (checked : bool) : RegexFlags :=
  match flag with
  | Fglobal =>
      {| global := checked; ignoreCase := ignoreCase flags;
         multiline := multiline flags; dotAll := dotAll flags;
         unicode := unicode flags; sticky := sticky flags |}
  | FignoreCase =>
      {| global := global flags; ignoreCase := checked;
         multiline := multiline flags; dotAll := dotAll flags;
         unicode := unicode flags; sticky := sticky flags |}
  | Fmultiline =>
      {| global := global flags; ignoreCase := ignoreCase flags;
         multiline := checked; dotAll := dotAll flags;
         unicode := unicode flags; sticky := sticky flags |}
  | FdotAll =>
      {| global := global flags; ignoreCase := ignoreCase flags;
         multiline := multiline flags; dotAll := checked;
         unicode := unicode flags; sticky := sticky flags |}
  | Funicode =>
      {| global := global flags; ignoreCase := ignoreCase flags;
         multiline := multiline flags; dotAll := dotAll flags;
         unicode := checked; sticky := sticky flags |}
  | Fsticky =>
      {| global := global flags; ignoreCase := ignoreCase flags;
         multiline := multiline flags; dotAll := dotAll flags;
         unicode := unicode flags; sticky := checked |}
  end.

(** The code character that [flagsToString] emits for a flag. *)
Definition flag_code (flag : FlagName) : ascii :=
  match flag with
  | Fglobal => "g" | FignoreCase => "i" | Fmultiline => "m"
  | FdotAll => "s" | Funicode => "u" | Fsticky => "y"
  end%char.

(** ** Shareable links ([ExportModal] and [App])

    [handleShare] builds the object [{ pattern, flags: flagsStr }] and puts
    [btoa(JSON.stringify(data))] in the query string of the link; on load
    [App] reads the parameter back and applies [JSON.parse(atob(...))] to
    it.  The way through the link is the host's and is not modelled: the
    base64 text goes into the query string as it is, so that a [+] in it
    comes back as a space and the decoding fails; the effect then changes
    nothing.  What is modelled is the two ends: the object that
    [handleShare] encodes, and what the effect does with the object that
    the decoding returned. *)

Record SharedData := {
  shared_pattern : string;
  shared_flags : string
}.

(** The state of [App] that a link restores. *)
Record AppState := {
  app_pattern : string;
  app_flags : RegexFlags
}.

Definition initialApp : AppState :=
  {| app_pattern := ""; app_flags := globalOnly |}.

(** The [data] object that [handleShare] encodes. *)
Definition handleShare (pattern : string) (flags : RegexFlags) : SharedData :=
  {| shared_pattern := pattern; shared_flags := flagsToString flags |}.

(** The effect of [App] that loads a shared pattern, from the point where
    the decoding has returned [data]: each field is used only when it is
    truthy. *)
Definition loadShared (data : SharedData) (app : AppState) : AppState :=
  let app :=
    if falsy (shared_pattern data) then app
    else {| app_pattern := shared_pattern data; app_flags := app_flags app |} in
  if falsy (shared_flags data) then app
  else {| app_pattern := app_pattern app;
          app_flags := parseFlags (shared_flags data) |}.

(** No flag set. *)
Definition noFlags : RegexFlags :=
  {| global := false; ignoreCase := false; multiline := false;
     dotAll := false; unicode := false; sticky := false |}.

(** ** More of the pattern library *)

(** The [id] property of every entry, in order ([None] where reading it
    throws). *)
Definition entry_ids (ups : list json) : list (option (option json)) :=
  (fun e => prop e "id") <$> ups.

(** ** Search in the library ([filteredPatterns]) *)

(** [toLowerCase] on one 8-bit character: the letters A-Z and the
    upper-case letters of Latin-1 (192-222 without the multiplication
    sign 215) move up by 32; nothing else changes. *)
Definition lower_char (c : ascii) : ascii :=
  let n := nat_of_ascii c in
  if ((65 <=? n) && (n <=? 90)) ||
     ((192 <=? n) && (n <=? 222) && negb (n =? 215))
  then ascii_of_nat (n + 32)
  else c.

Fixpoint toLowerCase (s : string) : string :=
  match s with
  | EmptyString => EmptyString
  | String c s' => String (lower_char c) (toLowerCase s')
  end.

(** [v.toLowerCase().includes(query)] for a property value [v]: a
    [TypeError] ([None]) unless [v] is a string. *)
Definition lower_includes (v : option json) (query : string) : option bool :=
  match v with
  | Some (JStr s) => Some (includes (toLowerCase s) query)
  | _ => None
  end.

(** [v?.toLowerCase().includes(query)]: the chain stops with [undefined]
    (falsy) when [v] is [undefined] or [null]. *)
Definition lower_includes_opt (v : option json) (query : string) : option bool :=
  match v with
  | None | Some JNull => Some false
  | Some (JStr s) => Some (includes (toLowerCase s) query)
  | Some _ => None
  end.

(** The callback of the filter: name, description, pattern and category
    are tried in this order, and the first hit ends the evaluation. *)
Definition matches_query (query : string) (p : json) : option bool :=
  match prop p "name" with
  | None => None
  | Some v =>
      match lower_includes v query with
      | None => None
      | Some true => Some true
      | Some false =>
          match lower_includes (default None (prop p "description")) query with
          | None => None
          | Some true => Some true
          | Some false =>
              match lower_includes (default None (prop p "pattern")) query with
              | None => None
              | Some true => Some true
              | Some false =>
                  lower_includes_opt (default None (prop p "category")) query
              end
          end
      end
  end.

(** [l.filter(f)] for a callback that may throw. *)
Fixpoint filter_entries (f : json -> option bool) (l : list json)
  : option (list json) :=
  match l with
  | [] => Some []
  | p :: rest =>
      match f p with
      | None => None
      | Some keep =>
          match filter_entries f rest with
          | None => None
          | Some kept => Some (if keep then p :: kept else kept)
          end
      end
  end.

Definition filteredPatterns (searchQuery : string) (allPatterns : list json)
  : option (list json) :=
  if falsy searchQuery then Some allPatterns
  else
    let query := toLowerCase searchQuery in
    filter_entries (matches_query query) allPatterns.

(** Whether one of the four text fields of a record, in lower case,
    contains the query. *)
Definition field_hit (k : string) (query : string) (e : json) : bool :=
  match prop e k with
  | Some (Some (JStr s)) => includes (toLowerCase s) query
  | _ => false
  end.

Definition entry_hit (query : string) (e : json) : bool :=
  field_hit "name" query e || field_hit "description" query e ||
  field_hit "pattern" query e || field_hit "category" query e.

(** ** React keys of the rendered spans *)

(** What tells two sibling spans apart: [text-k] for a plain span,
    [match-k] for a highlighted one, and no key for the lone span of the
    degenerate case. *)
Definition span_id (sp : Span) : SpanKind * option nat :=
  (span_kind sp, span_key sp).

(** The keys given out so far are distinct, the plain ones below
    [last] and the highlighted ones below [index]. *)
Definition keys_below (elements : list Span) (last index : nat) : Prop :=
  NoDup (span_id <$> elements) /\
  forall sp, sp ∈ elements ->
    exists k, span_key sp = Some k /\
      match span_kind sp with
      | Plain => k < last
      | Highlighted => k < index
      end.

(** ** What [TestArea] shows *)

(** The events of a session: the inputs change, or the timer fires. *)
Inductive SessionEvent :=
| InputsChanged (i : Inputs)
| TimerFired (fuel : nat) (startTime endTime : Z).

Definition session_step (P : Primitive) (ev : SessionEvent)
    (s : TestAreaSession) : option TestAreaSession :=
  match ev with
  | InputsChanged i => Some (onInputsChange P i s)
  | TimerFired fuel startTime endTime => onTimer P fuel startTime endTime s
  end.

Fixpoint session_run (P : Primitive) (evs : list SessionEvent)
    (s : TestAreaSession) : option TestAreaSession :=
  match evs with
  | [] => Some s
  | ev :: rest =>
      match session_step P ev s with
      | Some s' => session_run P rest s'
      | None => None
      end
  end.

(** [pattern && !isValid]: the card that reports an invalid pattern. *)
Definition showsInvalidCard (pattern : string) (st : TestAreaState) : bool :=
  negb (falsy pattern) && negb (isValid st).

(** [matches.length > 0]: the list of match details. *)
Definition showsMatchDetails (st : TestAreaState) : bool :=
  0 <? length (matches st).

(** [pattern && isValid]: the results with the highlighted text. *)
Definition showsResults (pattern : string) (st : TestAreaState) : bool :=
  negb (falsy pattern) && isValid st.

(** ** The render of the library list ([PatternLibrary])

    A change of [userPatterns] is followed by a render of the component,
    and the effect that writes the array to storage runs only once that
    render has been committed.  The render throws on entries that are not
    records of the expected kind; no error boundary surrounds the
    component, so React then unmounts the tree, the new state is lost and
    storage keeps what it held. *)

(** The names that every object inherits from [Object.prototype]. *)
Definition inheritedNames : list string :=
  ["constructor"; "hasOwnProperty"; "isPrototypeOf"; "propertyIsEnumerable";
   "toLocaleString"; "toString"; "valueOf"; "__defineGetter__";
   "__defineSetter__"; "__lookupGetter__"; "__lookupSetter__"; "__proto__"].

(** Truthiness of a value. *)
Definition truthy (v : json) : bool :=
  match v with
  | JNull => false
  | JBool b => b
  | JNum n => negb (n =? 0)%Z
  | JStr s => negb (falsy s)
  | JArr _ | JObj _ => true
  end.

(** The conversion of a value to a property key throws: an object with a
    property [toString] of its own, which is not a function in a parsed
    document, cannot be converted to a string, and neither can an array
    that holds such an object. *)
Fixpoint key_throws (v : json) : bool :=
  match v with
  | JObj fields => bool_decide (is_Some (assoc "toString" fields))
  | JArr xs => existsb key_throws xs
  | _ => false
  end.

(** The property key of a value is one of the inherited names: the value
    is such a string, or an array whose only element is converted to
    one. *)
Fixpoint key_inherited (v : json) : bool :=
  match v with
  | JStr s => bool_decide (s ∈ inheritedNames)
  | JArr [x] => key_inherited x
  | _ => false
  end.

(** One turn of the [forEach] that fills [patternsByCategory]; [false]
    when it throws.  Reading [category] of [null] throws.  The key is
    [pattern.category || "Other"]; under an inherited name [grouped] finds
    a value that is not an array, skips the initialisation and calls a
    [push] that does not exist. *)
Definition grouped (pattern : json) : bool :=
  match prop pattern "category" with
  | None => false
  | Some None => true
  | Some (Some category) =>
      if truthy category
      then negb (key_throws category) && negb (key_inherited category)
      else true
  end.

(** React displays strings and numbers, skips booleans, [null] and
    [undefined], goes through the elements of an array, and throws on any
    other object. *)
Fixpoint valid_child (v : json) : bool :=
  match v with
  | JObj _ => false
  | JArr xs => forallb valid_child xs
  | _ => true
  end.

(** A property handed to React as a child. *)
Definition displays (pattern : json) (k : string) : bool :=
  match prop pattern k with
  | Some (Some v) => valid_child v
  | _ => true
  end.

(** The card of one entry: [pattern.id.startsWith] must be callable, which
    among parsed values it is on strings only, and [name], [description]
    and [pattern] are displayed.  The items of the accordion are taken to
    be open, so that every card is mounted. *)
Definition card_renders (pattern : json) : bool :=
  match prop pattern "id" with
  | Some (Some (JStr _)) =>
      displays pattern "name" && displays pattern "description" &&
      displays pattern "pattern"
  | _ => false
  end.

(** The render of the list with [allPatterns] and the search box holding
    [searchQuery] goes through: the filter, the grouping and the cards, in
    this order. *)
Definition list_renders (searchQuery : string) (allPatterns : list json)
  : bool :=
  match filteredPatterns searchQuery allPatterns with
  | None => false
  | Some shown => forallb grouped shown && forallb card_renders shown
  end.

(** The component after a change of state: mounted with its state, or
    unmounted, with what storage holds. *)
Inductive Mounted :=
| Live (st : Library)
| Unmounted (stored : option json).

(** The render that follows a change of the user set from [before] to
    [after]: when it goes through, the state is committed and the save
    effect has run; when it throws, storage is as it was. *)
Definition commit (searchQuery : string) (patternsData : list json)
    (before after : Library) : Mounted :=
  if list_renders searchQuery (allPatterns patternsData after) then Live after
  else Unmounted (localStorage before).

(** The store's import as the interface offers it: [handleImportPatterns]
    and, when it changed the user set, the render that follows. *)
Definition importMany (searchQuery : string) (patternsData : list json)
    (parsed : option json) (st : Library) : Mounted * option string :=
  let '(st', alert) := handleImportPatterns parsed st in
  match parsed with
  | Some (JArr _) => (commit searchQuery patternsData st st', alert)
  | _ => (Live st', alert)
  end.

(** ** The host on UTF-16 text, with the [u] flag

    A JavaScript string is a sequence of 16-bit code units, and a
    character outside the basic plane takes two of them, a lead and a
    trail surrogate.  The characters of [string] are single units, so
    [exec] above is the host on text without surrogate pairs, where the
    [u] flag changes nothing in the [lastIndex] protocol.  Here are [exec]
    and the global loop once more, over sequences of code units and with
    the [u] flag: in unicode mode the host matches whole code points, so
    that a search started on the trail unit of a pair starts at its lead
    unit. *)

Definition Text16 : Type := list N.

Definition isLeadSurrogate (u : N) : bool :=
  (0xD800 <=? u)%N && (u <=? 0xDBFF)%N.

Definition isTrailSurrogate (u : N) : bool :=
  (0xDC00 <=? u)%N && (u <=? 0xDFFF)%N.

(** The index of the first unit of the code point that unit [i] is part
    of. *)
Definition codePointStart (s : Text16) (i : nat) : nat :=
  match i with
  | 0 => 0
  | S j =>
      match s !! j, s !! i with
      | Some a, Some b =>
          if isLeadSurrogate a && isTrailSurrogate b then j else i
      | _, _ => i
      end
  end.

(** [AdvanceStringIndex(S, index, unicode)] of ECMA-262. *)
Definition advanceStringIndex (s : Text16) (index : nat) (fullUnicode : bool)
  : nat :=
  if negb fullUnicode then index + 1
  else if length s <=? index + 1 then index + 1
  else
    match s !! index, s !! (index + 1) with
    | Some a, Some b =>
        if isLeadSurrogate a && isTrailSurrogate b then index + 2
        else index + 1
    | _, _ => index + 1
    end.

(** A compiled pattern on UTF-16 text: tried at the first unit of a code
    point it fails or gives the index of the unit where the match ends. *)
Definition Matcher16 : Type :=
  Text16 -> nat -> option (nat * list (option Text16)).

Record RegExp16 := mkRegExp16 {
  re16_matcher : Matcher16;
  re16_global : bool;
  re16_sticky : bool;
  re16_unicode : bool;
  lastIndex16 : nat
}.

Definition set_lastIndex16 (r : RegExp16) (i : nat) : RegExp16 :=
  {| re16_matcher := re16_matcher r; re16_global := re16_global r;
     re16_sticky := re16_sticky r; re16_unicode := re16_unicode r;
     lastIndex16 := i |}.

Record ExecResult16 := {
  res16_index : nat;
  res16_0 : Text16;
  res16_captures : list (option Text16)
}.

(** The search of [exec] ([RegExpBuiltinExec] of ECMA-262): from position
    [i], while it does not exceed the length.  With the [u] flag the
    matcher is tried at the start of the code point that unit [i] is part
    of, and after a failure the position moves past that code point. *)
Fixpoint scan16 (m : Matcher16) (stickyFlag fullUnicode : bool) (s : Text16)
    (n i : nat) : option (nat * (nat * list (option Text16))) :=
  match n with
  | 0 => None
  | S n' =>
      if length s <? i then None
      else
        let start := if fullUnicode then codePointStart s i else i in
        match m s start with
        | Some r => Some (start, r)
        | None =>
            if stickyFlag then None
            else scan16 m stickyFlag fullUnicode s n'
                   (advanceStringIndex s i fullUnicode)
        end
  end.

(** [regex.exec(s)] on UTF-16 text. *)
Definition exec16 (r : RegExp16) (s : Text16)
  : option ExecResult16 * RegExp16 :=
  let tracked := re16_global r || re16_sticky r in
  let start := if tracked then lastIndex16 r else 0 in
  match scan16 (re16_matcher r) (re16_sticky r) (re16_unicode r) s
          (length s + 1 - start) start with
  | None => (None, if tracked then set_lastIndex16 r 0 else r)
  | Some (i, (e, caps)) =>
      (Some {| res16_index := i;
               res16_0 := take (e - i) (drop i s);
               res16_captures := caps |},
       if tracked then set_lastIndex16 r e else r)
  end.

Record PatternMatch16 := {
  text16 : Text16;
  startIndex16 : nat;
  endIndex16 : nat;
  groups16 : list (option Text16)
}.

Definition to_match16 (m : ExecResult16) : PatternMatch16 :=
  {| text16 := res16_0 m;
     startIndex16 := res16_index m;
     endIndex16 := res16_index m + length (res16_0 m);
     groups16 := res16_captures m |}.

(** One turn of the global loop of [TestArea], as [loop_body]. *)
Definition loop_body16 (regex : RegExp16) (sampleText : Text16)
  : option PatternMatch16 * RegExp16 :=
  match exec16 regex sampleText with
  | (None, regex') => (None, regex')
  | (Some m, regex') =>
      (Some (to_match16 m),
       if length (res16_0 m) =? 0
       then set_lastIndex16 regex' (lastIndex16 regex' + 1)
       else regex')
  end.

(** The global loop, as [match_loop]: [None] when it has not exited
    within [fuel] turns. *)
Fixpoint match_loop16 (fuel : nat) (regex : RegExp16) (sampleText : Text16)
    (allMatches : list PatternMatch16) : option (list PatternMatch16) :=
  match fuel with
  | 0 => None
  | S fuel' =>
      match loop_body16 regex sampleText with
      | (None, _) => Some allMatches
      | (Some m, regex') =>
          match_loop16 fuel' regex' sampleText (allMatches ++ [m])
      end
  end.

(** The starred character [c*], for a character [c] of the basic plane:
    as many units equal to [c] as there are from the position on. *)
Fixpoint run_length (c : N) (s : Text16) : nat :=
  match s with
  | u :: s' => if (u =? c)%N then S (run_length c s') else 0
  | [] => 0
  end.

Definition star_matcher16 (c : N) : Matcher16 :=
  fun s i => Some (i + run_length c (drop i s), []).

(** [new RegExp("x*", "gu")] and [new RegExp("x*", "g")]. *)
Definition x_star_gu : RegExp16 :=
  {| re16_matcher := star_matcher16 0x78%N; re16_global := true;
     re16_sticky := false; re16_unicode := true; lastIndex16 := 0 |}.

Definition x_star_g : RegExp16 :=
  {| re16_matcher := star_matcher16 0x78%N; re16_global := true;
     re16_sticky := false; re16_unicode := false; lastIndex16 := 0 |}.

(** The text made of the one character U+1F600, a surrogate pair. *)
Definition grinningFace : Text16 := [0xD83D; 0xDE00]%N.

(* ===================================================================== *)
(** * Part II: properties                                                *)
(* ===================================================================== *)

(** ** Strings *)

Lemma prefix_char c d s :
  String.prefix (String c "") (String d s) = bool_decide (c = d).
Proof.
  simpl. destruct (Ascii.ascii_dec c d) as [->|Hne].
  - rewrite bool_decide_eq_true_2 by done. by destruct s.
  - by rewrite bool_decide_eq_false_2.
Qed.

Lemma includes_char s c :
  includes s (String c "") = true <-> c ∈ list_ascii_of_string s.
Proof.
  induction s as [|d s IH].
  - simpl. split; [discriminate | by intros ?%elem_of_nil].
  - cbn [includes list_ascii_of_string]. rewrite prefix_char.
    rewrite orb_true_iff, IH, bool_decide_eq_true, elem_of_cons.
    done.
Qed.

Lemma includes_char_ext s s' c :
  (c ∈ list_ascii_of_string s <-> c ∈ list_ascii_of_string s') ->
  includes s (String c "") = includes s' (String c "").
Proof.
  intros H. apply eq_true_iff_eq. by rewrite !includes_char.
Qed.

Lemma filter_agree {A} (P Q : A -> Prop) `{!forall x, Decision (P x)}
    `{!forall x, Decision (Q x)} (l : list A) :
  (forall x, x ∈ l -> P x <-> Q x) -> filter P l = filter Q l.
Proof.
  induction l as [|a l IH]; intros Hagree; [done|].
  rewrite !filter_cons.
  rewrite IH by (intros x Hx; apply Hagree; by right).
  assert (P a <-> Q a) as Ha by (apply Hagree; by left).
  destruct (decide (P a)), (decide (Q a)); tauto || done.
Qed.

(** ** Flag codec *)

Lemma parseFlags_flagsToString f : parseFlags (flagsToString f) = f.
Proof. destruct f as [[] [] [] [] [] []]; reflexivity. Qed.

Lemma flagsToString_canonical f :
  list_ascii_of_string (flagsToString f) =
  filter (fun c => flag_of_code f c = true) canonicalFlags.
Proof. destruct f as [[] [] [] [] [] []]; reflexivity. Qed.

Lemma parseFlags_spec s c :
  c ∈ canonicalFlags ->
  flag_of_code (parseFlags s) c = includes s (String c "").
Proof.
  unfold canonicalFlags. rewrite !elem_of_cons, elem_of_nil.
  intros [->|[->|[->|[->|[->|[->|[]]]]]]]; reflexivity.
Qed.

Lemma parseFlags_ext s s' :
  (forall c, c ∈ list_ascii_of_string s <-> c ∈ list_ascii_of_string s') ->
  parseFlags s = parseFlags s'.
Proof.
  intros H. unfold parseFlags. f_equal; apply includes_char_ext, H.
Qed.

(** C2.  Decoding an encoded flag set gives it back; the encoder emits
    exactly the codes of the set flags, in the order g, i, m, s, u, y;
    the decoder sets a flag exactly when its code occurs somewhere in the
    string; so re-encoding a decoded string lists the codes that occur in
    it in canonical order, and two strings with the same characters,
    whatever their order and repetitions, re-encode to the same string. *)
Theorem flag_codec_round_trip :
  (forall f, parseFlags (flagsToString f) = f) /\
  (forall f, list_ascii_of_string (flagsToString f) =
             filter (fun c => flag_of_code f c = true) canonicalFlags) /\
  (forall s c, c ∈ canonicalFlags ->
     (flag_of_code (parseFlags s) c = true <-> c ∈ list_ascii_of_string s)) /\
  (forall s, list_ascii_of_string (flagsToString (parseFlags s)) =
             filter (fun c => c ∈ list_ascii_of_string s) canonicalFlags) /\
  (forall s s',
     (forall c, c ∈ list_ascii_of_string s <-> c ∈ list_ascii_of_string s') ->
     flagsToString (parseFlags s) = flagsToString (parseFlags s')).
Proof.
  split; [exact parseFlags_flagsToString|].
  split; [exact flagsToString_canonical|].
  split.
  { intros s c Hc. by rewrite parseFlags_spec, includes_char. }
  split.
  { intros s. rewrite flagsToString_canonical.
    apply filter_agree. intros c Hc.
    by rewrite parseFlags_spec, includes_char. }
  intros s s' H. by rewrite (parseFlags_ext s s').
Qed.

Lemma flag_codec_round_trip_witness :
  (flag_of_code (parseFlags "ygxg") "y" = true <-> "y"%char ∈ chars "ygxg") /\
  flagsToString (parseFlags "ygxg") = flagsToString (parseFlags "gxy").
Proof.
  split.
  - apply (proj1 (proj2 (proj2 flag_codec_round_trip))).
    unfold canonicalFlags. rewrite !list_elem_of_In. simpl. tauto.
  - apply (proj2 (proj2 (proj2 (proj2 flag_codec_round_trip)))).
    intros c. rewrite !list_elem_of_In. simpl. tauto.
Defined.

(** ** Strings as character lists *)

Lemma chars_inj s1 s2 : chars s1 = chars s2 -> s1 = s2.
Proof.
  intros H. rewrite <- (string_of_list_ascii_of_string s1),
    <- (string_of_list_ascii_of_string s2). by rewrite H.
Qed.

Lemma chars_length s : length (chars s) = String.length s.
Proof. induction s; simpl; [done | by f_equal]. Qed.

Lemma chars_append s1 s2 : chars (s1 +:+ s2) = chars s1 ++ chars s2.
Proof. induction s1; simpl; [done | by f_equal]. Qed.

Lemma chars_substring n m s :
  chars (String.substring n m s) = take m (drop n (chars s)).
Proof.
  revert n m. induction s as [|c s IH]; intros [|n] [|m]; simpl; try done.
  all: by rewrite IH.
Qed.

Lemma substring_length n m s :
  String.length (String.substring n m s) = m `min` (String.length s - n).
Proof.
  rewrite <- !chars_length, chars_substring, length_take, length_drop.
  done.
Qed.

Lemma falsy_length s : falsy s = (String.length s =? 0).
Proof. by destruct s. Qed.

Lemma falsy_true s : falsy s = true <-> s = "".
Proof. destruct s; simpl; split; congruence. Qed.

(** ** The match loop *)

Section MatchLoop.
Variable regex : RegExp.
Variable sampleText : string.
Hypothesis Hok : matcher_ok (re_matcher regex).
Hypothesis Hglobal : re_global regex = true.

Lemma scan_found m st n i j e caps :
  scan m st sampleText n i = Some (j, (e, caps)) ->
  i <= j < i + n /\ m sampleText j = Some (e, caps).
Proof.
  revert i. induction n as [|n IH]; intros i; simpl; [done|].
  destruct (m sampleText i) as [[e' caps']|] eqn:Hm.
  - intros [= <- <- <-]. split; [lia | done].
  - destruct st; [done|]. intros H%IH. split; [lia | tauto].
Qed.

(** A successful [exec] of a global expression: the match starts at or
    after [lastIndex], lies inside the text, and [lastIndex] moves to
    its end. *)
Lemma exec_found res regex' :
  exec regex sampleText = (Some res, regex') ->
  lastIndex regex <= res_index res /\
  res_index res + String.length (res_0 res) <= String.length sampleText /\
  lastIndex regex' = res_index res + String.length (res_0 res) /\
  re_matcher regex' = re_matcher regex /\
  re_global regex' = true.
Proof.
  unfold exec. rewrite Hglobal. simpl.
  destruct (scan _ _ _ _ _) as [[j [e caps]]|] eqn:Hscan; [|done].
  intros [= <- <-]. simpl.
  apply scan_found in Hscan as [Hj Hm]. apply Hok in Hm.
  rewrite substring_length. repeat split; try done; lia.
Qed.

(** One turn of the loop that pushes a match moves [lastIndex] strictly
    forward: to the end of a non-empty match, and one unit past the
    start of an empty one. *)
Lemma loop_body_progress m regex' :
  loop_body regex sampleText = (Some m, regex') ->
  lastIndex regex <= startIndex m /\
  endIndex m <= String.length sampleText /\
  (String.length (text m) = 0 -> lastIndex regex' = startIndex m + 1) /\
  (String.length (text m) <> 0 -> lastIndex regex' = endIndex m) /\
  lastIndex regex < lastIndex regex' /\
  re_matcher regex' = re_matcher regex /\
  re_global regex' = true.
Proof.
  unfold loop_body.
  destruct (exec regex sampleText) as [[res|] r1] eqn:Hexec; [|done].
  apply exec_found in Hexec as (Hstart & Hend & Hlast & Hm & Hg).
  intros [= <- <-]. simpl.
  destruct (Nat.eqb_spec (String.length (res_0 res)) 0) as [Hz|Hnz];
    simpl; repeat split; try done; try lia.
Qed.

(** The match pushed is a match of the text: its indices are ordered and
    inside the text, and its [text] is the slice between them. *)
Lemma loop_body_match_inv m regex' :
  loop_body regex sampleText = (Some m, regex') ->
  match_inv sampleText m.
Proof.
  unfold loop_body, exec. rewrite Hglobal. simpl.
  destruct (scan _ _ _ _ _) as [[j [e caps]]|] eqn:Hscan; [|done].
  intros [= <- _]. apply scan_found in Hscan as [Hj Hm]. apply Hok in Hm.
  unfold match_inv, to_match. simpl. rewrite substring_length.
  split; [lia|]. f_equal. lia.
Qed.
End MatchLoop.

Lemma match_loop_exits fuel : forall regex sampleText allMatches log,
  matcher_ok (re_matcher regex) ->
  re_global regex = true ->
  String.length sampleText + 1 - lastIndex regex < fuel ->
  exists res, match_loop fuel regex sampleText allMatches log = Some res.
Proof.
  induction fuel as [|fuel IH]; intros regex s acc log Hok Hg Hfuel.
  - lia.
  - simpl.
    destruct (loop_body regex s) as [[m|] regex'] eqn:Hbody; [|by eexists].
    pose proof (loop_body_progress regex s Hok Hg m regex' Hbody)
      as (Hs & He & _ & _ & Hlt & Hm & Hg').
    apply IH; [by rewrite Hm | done |].
    assert (startIndex m <= endIndex m).
    { unfold loop_body in Hbody.
      destruct (exec regex s) as [[res|] r1]; [|done].
      injection Hbody as <- _. unfold to_match. simpl. lia. }
    lia.
Qed.

Lemma match_loop_fuel_mono fuel : forall fuel' regex sampleText allMatches log res,
  match_loop fuel regex sampleText allMatches log = Some res ->
  fuel <= fuel' ->
  match_loop fuel' regex sampleText allMatches log = Some res.
Proof.
  induction fuel as [|fuel IH]; intros fuel' regex s acc log res; [done|].
  destruct fuel' as [|fuel']; [lia|]. simpl.
  destruct (loop_body regex s) as [[m|] regex']; [|done].
  intros H Hle. apply IH; [done | lia].
Qed.

Lemma non_overlapping_weaken a b ms :
  b <= a -> non_overlapping a ms -> non_overlapping b ms.
Proof. destruct ms as [|m ms]; simpl; [done|]. intros ? [? ?]. split; [lia|done]. Qed.

(** What the global loop adds to [allMatches] are matches of the text,
    sorted and non-overlapping from the position the loop started at. *)
Lemma match_loop_matches fuel : forall regex sampleText allMatches log ms log',
  matcher_ok (re_matcher regex) ->
  re_global regex = true ->
  match_loop fuel regex sampleText allMatches log = Some (ms, log') ->
  exists new,
    ms = allMatches ++ new /\
    Forall (match_inv sampleText) new /\
    non_overlapping (lastIndex regex) new.
Proof.
  induction fuel as [|fuel IH]; intros regex s acc log ms log' Hok Hg; [done|].
  simpl. destruct (loop_body regex s) as [[m|] regex'] eqn:Hbody.
  - pose proof (loop_body_progress regex s Hok Hg m regex' Hbody)
      as (Hs & He & Hz & Hnz & Hlt & Hm & Hg').
    pose proof (loop_body_match_inv regex s Hok Hg m regex' Hbody) as Hinv.
    intros Hloop. apply IH in Hloop as (new & -> & Hnew & Hno);
      [|by rewrite Hm | done].
    exists (m :: new). split; [by rewrite <- app_assoc|].
    split; [by constructor|]. simpl. split; [done|].
    apply (non_overlapping_weaken (lastIndex regex')); [|done].
    destruct (decide (String.length (text m) = 0)) as [Hlen|Hlen].
    + rewrite (Hz Hlen). destruct Hinv as [[? ?] ?]. 
      assert (endIndex m = startIndex m); [|lia].
      unfold loop_body in Hbody.
      destruct (exec regex s) as [[res|] r1]; [|done].
      injection Hbody as <- _. unfold to_match in *. simpl in *. lia.
    + by rewrite (Hnz Hlen).
  - intros [= <- _]. exists []. by rewrite app_nil_r.
Qed.

(** ** The reference primitive honours the contract *)

Lemma match_star_bound c k :
  (forall s n, k s = Some n -> n <= String.length s) ->
  forall s n, match_star c k s = Some n -> n <= String.length s.
Proof.
  intros Hk. induction s as [|d s IHs]; intros n; simpl; [apply Hk|].
  destruct (Ascii.eqb c d); [|apply (Hk (String d s))].
  destruct (match_star c k s) as [j|]; [|apply (Hk (String d s))].
  intros [= <-]. specialize (IHs j eq_refl). lia.
Qed.

Lemma match_atoms_bound atoms : forall s n,
  match_atoms atoms s = Some n -> n <= String.length s.
Proof.
  induction atoms as [|[c|c] rest IH]; intros s n; simpl.
  - intros [= <-]. lia.
  - destruct s as [|d s]; [done|]. destruct (Ascii.eqb c d); [|done].
    destruct (match_atoms rest s) as [j|] eqn:Hj; [|done].
    intros [= <-]. apply IH in Hj. simpl. lia.
  - by apply match_star_bound.
Qed.

Lemma atoms_matcher_ok atoms : matcher_ok (atoms_matcher atoms).
Proof.
  intros s i e caps. unfold atoms_matcher.
  destruct (Nat.leb_spec i (String.length s)) as [Hi|Hi]; [|done].
  destruct (match_atoms _ _) as [n|] eqn:Hn; [|done].
  intros [= <- <-]. apply match_atoms_bound in Hn.
  rewrite substring_length in Hn. lia.
Qed.

Lemma literalPrimitive_ok : primitive_ok literalPrimitive.
Proof.
  intros pattern flagsStr m. simpl.
  destruct (includes flagsStr "i"); [done|].
  destruct (parse_atoms pattern); [|done].
  intros [= <-]. apply atoms_matcher_ok.
Qed.

(** X27.  For a matcher that honours the host's contract, the global
    match loop terminates on every sample text: with more turns than there
    are positions in the text (its length plus one, counted from
    [lastIndex]) the loop exits, and further fuel does not change its
    result; so does the scheduled run of the component, for every
    primitive whose matchers honour the contract.  Each turn that pushes a
    match moves the search position strictly forward, and after a match
    with empty text it stands one unit past the match's [startIndex].  The
    pattern [x*] with the global flag on the text [abc] gives exactly four
    matches, at 0, 1, 2 and 3, each with empty text. *)
Theorem match_loop_terminates_under_contract :
  (forall regex sampleText allMatches log fuel,
     matcher_ok (re_matcher regex) ->
     re_global regex = true ->
     String.length sampleText + 1 - lastIndex regex < fuel ->
     exists res,
       match_loop fuel regex sampleText allMatches log = Some res /\
       forall fuel', fuel <= fuel' ->
         match_loop fuel' regex sampleText allMatches log = Some res) /\
  (forall P task st startTime endTime fuel,
     primitive_ok P ->
     String.length (run_sampleText task) + 1 < fuel ->
     exists res, runPending P fuel startTime endTime task st = Some res) /\
  (forall regex sampleText m regex',
     matcher_ok (re_matcher regex) ->
     re_global regex = true ->
     loop_body regex sampleText = (Some m, regex') ->
     lastIndex regex <= startIndex m /\
     (String.length (text m) = 0 -> lastIndex regex' = startIndex m + 1) /\
     lastIndex regex < lastIndex regex') /\
  match_loop 5 x_star_global "abc" [] [] =
    Some ([ {| text := ""; startIndex := 0; endIndex := 0; groups := [] |};
            {| text := ""; startIndex := 1; endIndex := 1; groups := [] |};
            {| text := ""; startIndex := 2; endIndex := 2; groups := [] |};
            {| text := ""; startIndex := 3; endIndex := 3; groups := [] |} ],
          [ Executed "abc" 0; Executed "abc" 1; Executed "abc" 2;
            Executed "abc" 3; Executed "abc" 4 ]) /\
  (forall st startTime endTime,
     matches <$> (fst <$> runPending literalPrimitive 5 startTime endTime
                    {| run_pattern := "x*"; run_flags := globalOnly;
                       run_sampleText := "abc" |} st) =
     Some [ {| text := ""; startIndex := 0; endIndex := 0; groups := [] |};
            {| text := ""; startIndex := 1; endIndex := 1; groups := [] |};
            {| text := ""; startIndex := 2; endIndex := 2; groups := [] |};
            {| text := ""; startIndex := 3; endIndex := 3; groups := [] |} ]).
Proof.
  split.
  { intros regex s acc log fuel Hok Hg Hfuel.
    destruct (match_loop_exits fuel regex s acc log Hok Hg Hfuel) as [res Hres].
    exists res. split; [done|]. intros fuel' Hle.
    by apply (match_loop_fuel_mono fuel). }
  split.
  { intros P task st t0 t1 fuel HP Hfuel. unfold runPending, new_RegExp.
    destruct (compile P _ _) as [m|msg] eqn:Hc; [|by eexists].
    destruct (global (run_flags task)) eqn:Hg.
    - edestruct (match_loop_exits fuel) as [[ms lg] ->]; [..|by eexists].
      + simpl. by eapply HP.
      + simpl. change (global (parseFlags (flagsToString (run_flags task))) = true).
        by rewrite parseFlags_flagsToString.
      + simpl. lia.
    - destruct (match_once _ _). by eexists. }
  split.
  { intros regex s m regex' Hok Hg Hbody.
    pose proof (loop_body_progress regex s Hok Hg m regex' Hbody). tauto. }
  split; [reflexivity|].
  intros st t0 t1. reflexivity.
Qed.

Lemma match_loop_terminates_under_contract_witness :
  (exists res,
     match_loop 5 x_star_global "abc" [] [] = Some res /\
     forall fuel', 5 <= fuel' ->
       match_loop fuel' x_star_global "abc" [] [] = Some res) /\
  (exists res,
     runPending literalPrimitive 6 0 1
       {| run_pattern := "ab*"; run_flags := globalOnly;
          run_sampleText := "abba" |} initialTestArea = Some res) /\
  (lastIndex x_star_global <= 0 /\
   (String.length "" = 0 -> 1 = 0 + 1) /\
   lastIndex x_star_global < 1).
Proof.
  split; [|split].
  - apply (proj1 match_loop_terminates_under_contract).
    + apply atoms_matcher_ok.
    + reflexivity.
    + simpl. lia.
  - apply (proj1 (proj2 match_loop_terminates_under_contract)).
    + apply literalPrimitive_ok.
    + simpl. lia.
  - apply (proj1 (proj2 (proj2 match_loop_terminates_under_contract))
             x_star_global "abc"
             {| text := ""; startIndex := 0; endIndex := 0; groups := [] |}
             (set_lastIndex x_star_global 1)).
    + apply atoms_matcher_ok.
    + reflexivity.
    + reflexivity.
Defined.

(** C7.  With an empty pattern or an empty sample text the matching
    effect clears the matches and the elapsed time, schedules no run and
    makes no call to the primitive, whatever the primitive and the flags;
    it leaves [isValid] as it was.  After the pattern [(] was found
    invalid on the text [abc], the valid pattern [a] on the empty text is
    therefore still reported as invalid. *)
Theorem short_circuit_keeps_stale_validity :
  (forall P flags sampleText st,
     matchEffect P "" flags sampleText st =
     ({| matches := []; executionTime := 0; isValid := isValid st |},
      None, [])) /\
  (forall P pattern flags st,
     matchEffect P pattern flags "" st =
     ({| matches := []; executionTime := 0; isValid := isValid st |},
      None, [])) /\
  (let st1 :=
     (matchEffect literalPrimitive "(" globalOnly "abc" initialTestArea).1.1 in
   isValid st1 = false /\
   validateRegex literalPrimitive "a" globalOnly = (None, [Compiled "a" "g"]) /\
   matchEffect literalPrimitive "a" globalOnly "" st1 =
     ({| matches := []; executionTime := 0; isValid := false |}, None, [])).
Proof.
  split; [reflexivity|]. split; [|by vm_compute].
  intros P pattern flags st. unfold matchEffect.
  by rewrite orb_true_r.
Qed.

(** ** The highlight renderer *)

Lemma append_empty_r s : s +:+ "" = s.
Proof. apply chars_inj. by rewrite chars_append, app_nil_r. Qed.

Lemma rendered_text_app a b :
  rendered_text (a ++ b) = rendered_text a +:+ rendered_text b.
Proof.
  induction a as [|sp a IH]; simpl; [done|].
  rewrite IH. apply chars_inj. by rewrite !chars_append, app_assoc.
Qed.

Lemma rendered_text_snoc a sp :
  rendered_text (a ++ [sp]) = rendered_text a +:+ span_text sp.
Proof. rewrite rendered_text_app. simpl. by rewrite append_empty_r. Qed.

(** Inside the text and in order, [substring(a, b)] is the slice of
    length [b - a] at [a]. *)
Lemma js_substring_slice s a b :
  a <= b <= String.length s ->
  js_substring s a b = String.substring a (b - a) s.
Proof.
  intros H. unfold js_substring.
  rewrite (Nat.min_l a), (Nat.min_l b), Nat.min_l, Nat.max_r by lia. done.
Qed.

Lemma js_substring_length s a b :
  String.length (js_substring s a b) =
  (a `min` String.length s) `max` (b `min` String.length s) -
  (a `min` String.length s) `min` (b `min` String.length s).
Proof. unfold js_substring. rewrite substring_length. lia. Qed.

(** Two adjacent slices make one. *)
Lemma substring_extend s a b :
  a <= b ->
  String.substring 0 a s +:+ String.substring a (b - a) s =
  String.substring 0 b s.
Proof.
  intros H. apply chars_inj.
  rewrite chars_append, !chars_substring, !drop_0, take_take_drop.
  f_equal. lia.
Qed.

Lemma substring_all s : String.substring 0 (String.length s) s = s.
Proof.
  apply chars_inj. rewrite chars_substring, drop_0, take_ge; [done|].
  by rewrite chars_length.
Qed.

(** The loop over the matches keeps this invariant: the spans pushed so
    far display the text up to [lastIndex]. *)
Lemma forEach_match_prefix s : forall ms index elements last,
  Forall (match_inv s) ms ->
  non_overlapping last ms ->
  rendered_text elements = String.substring 0 last s ->
  rendered_text (forEach_match s ms index elements last).1 =
    String.substring 0 (forEach_match s ms index elements last).2 s /\
  ((forEach_match s ms index elements last).2 <= String.length s \/ ms = []).
Proof.
  induction ms as [|m ms IH]; intros index elements last Hinv Hno Hpre.
  - simpl. split; [done | by right].
  - apply Forall_cons in Hinv as [[Hidx Htext] Hinv].
    destruct Hno as [Hlast Hno]. cbn [forEach_match].
    match goal with |- context [forEach_match s ms (S index) ?els _] =>
      destruct (IH (S index) els (endIndex m) Hinv Hno) as [IH1 IH2] end.
    + rewrite rendered_text_snoc. cbn [span_text]. rewrite Htext.
      destruct (Nat.ltb_spec last (startIndex m)) as [Hlt|Hge].
      * rewrite rendered_text_snoc. cbn [span_text].
        rewrite js_substring_slice, Hpre by lia.
        rewrite substring_extend by lia. apply substring_extend. lia.
      * replace (startIndex m) with last by lia.
        rewrite Hpre. apply substring_extend. lia.
    + split; [done|]. left. destruct IH2 as [?| ->]; [done|]. simpl. lia.
Qed.

(** C3 as stated fails: the two matches below are sorted, do not overlap
    and have their indices inside the text [abcdef], but they were found
    in another text, which is what the component holds between a change of
    the sample text and the next run; the match spans show [match.text],
    and the rendered text is [a12d34]. *)
Lemma stale_matches_do_not_reconstruct_text :
  let ms := [ {| text := "12"; startIndex := 1; endIndex := 3; groups := [] |};
              {| text := "34"; startIndex := 4; endIndex := 6; groups := [] |} ] in
  non_overlapping 0 ms /\
  Forall (fun m => startIndex m <= endIndex m <= String.length "abcdef") ms /\
  renderHighlightedText "abcdef" ms =
    [ {| span_key := Some 0; span_kind := Plain; span_text := "a" |};
      {| span_key := Some 0; span_kind := Highlighted; span_text := "12" |};
      {| span_key := Some 3; span_kind := Plain; span_text := "d" |};
      {| span_key := Some 1; span_kind := Highlighted; span_text := "34" |} ] /\
  rendered_text (renderHighlightedText "abcdef" ms) = "a12d34" /\
  rendered_text (renderHighlightedText "abcdef" ms) <> "abcdef".
Proof.
  intros ms. split; [simpl; lia|]. split.
  { repeat constructor; simpl; lia. }
  split; [reflexivity|]. split; [reflexivity|]. discriminate.
Qed.

(** C3, amended.  For every sample text and every list of matches of
    that text (each with ordered indices inside the text and with [text]
    the slice between them) that is sorted and non-overlapping, the texts
    of the rendered spans, concatenated in order, are the sample text;
    with no match the output is one plain span holding the whole text.
    The match lists that the global loop produces are of this kind, so
    that rendering the result of a run on the text it was run on gives the
    text back. *)
Theorem highlight_reconstructs_sample_text :
  (forall sampleText ms,
     Forall (match_inv sampleText) ms ->
     non_overlapping 0 ms ->
     rendered_text (renderHighlightedText sampleText ms) = sampleText) /\
  (forall sampleText,
     renderHighlightedText sampleText [] =
     [{| span_key := None; span_kind := Plain; span_text := sampleText |}]) /\
  (forall regex sampleText fuel ms log,
     matcher_ok (re_matcher regex) ->
     re_global regex = true ->
     match_loop fuel regex sampleText [] [] = Some (ms, log) ->
     rendered_text (renderHighlightedText sampleText ms) = sampleText).
Proof.
  assert (Hmain : forall s ms,
            Forall (match_inv s) ms -> non_overlapping 0 ms ->
            rendered_text (renderHighlightedText s ms) = s).
  { intros s ms Hinv Hno. unfold renderHighlightedText.
    destruct (falsy s || (length ms =? 0)) eqn:Hdeg.
    { simpl. apply append_empty_r. }
    apply orb_false_iff in Hdeg as [_ Hms].
    destruct (forEach_match_prefix s ms 0 [] 0 Hinv Hno) as [Hpre Hlen].
    { by destruct s. }
    destruct Hlen as [Hlen| ->]; [|done].
    destruct (forEach_match s ms 0 [] 0) as [elements last]. simpl in *.
    destruct (Nat.ltb_spec last (String.length s)) as [Hlt|Hge].
    + rewrite rendered_text_snoc, Hpre. cbn [span_text].
      unfold js_substring_from. rewrite js_substring_slice by lia.
      rewrite substring_extend by lia. apply substring_all.
    + rewrite Hpre. replace last with (String.length s) by lia.
      apply substring_all. }
  split; [exact Hmain|]. split.
  - intros s. unfold renderHighlightedText. simpl. by rewrite orb_true_r.
  - intros regex s fuel ms log Hok Hg Hloop.
    apply match_loop_matches in Hloop as (new & -> & Hinv & Hno); [|done..].
    apply Hmain; [done|]. simpl.
    by apply (non_overlapping_weaken (lastIndex regex)); [lia|].
Qed.

Lemma highlight_reconstructs_sample_text_witness :
  rendered_text
    (renderHighlightedText "a12b34"
       [ {| text := "12"; startIndex := 1; endIndex := 3; groups := [] |};
         {| text := "34"; startIndex := 4; endIndex := 6; groups := [] |} ])
  = "a12b34" /\
  rendered_text
    (renderHighlightedText "abc"
       [ {| text := ""; startIndex := 0; endIndex := 0; groups := [] |};
         {| text := ""; startIndex := 1; endIndex := 1; groups := [] |};
         {| text := ""; startIndex := 2; endIndex := 2; groups := [] |};
         {| text := ""; startIndex := 3; endIndex := 3; groups := [] |} ])
  = "abc".
Proof.
  split.
  - apply (proj1 highlight_reconstructs_sample_text).
    + repeat constructor; simpl; lia.
    + simpl. repeat split; lia.
  - apply (proj2 (proj2 highlight_reconstructs_sample_text)
             x_star_global "abc" 5 _
             [ Executed "abc" 0; Executed "abc" 1; Executed "abc" 2;
               Executed "abc" 3; Executed "abc" 4 ]).
    + apply atoms_matcher_ok.
    + reflexivity.
    + reflexivity.
Defined.

(** C9 as stated fails: the four empty matches of [x*] on [abc] are
    rendered as four highlighted spans with empty text. *)
Lemma zero_length_match_renders_empty_span :
  let ms := [ {| text := ""; startIndex := 0; endIndex := 0; groups := [] |};
              {| text := ""; startIndex := 1; endIndex := 1; groups := [] |};
              {| text := ""; startIndex := 2; endIndex := 2; groups := [] |};
              {| text := ""; startIndex := 3; endIndex := 3; groups := [] |} ] in
  fst <$> match_loop 5 x_star_global "abc" [] [] = Some ms /\
  renderHighlightedText "abc" ms =
    [ {| span_key := Some 0; span_kind := Highlighted; span_text := "" |};
      {| span_key := Some 0; span_kind := Plain; span_text := "a" |};
      {| span_key := Some 1; span_kind := Highlighted; span_text := "" |};
      {| span_key := Some 1; span_kind := Plain; span_text := "b" |};
      {| span_key := Some 2; span_kind := Highlighted; span_text := "" |};
      {| span_key := Some 2; span_kind := Plain; span_text := "c" |};
      {| span_key := Some 3; span_kind := Highlighted; span_text := "" |} ] /\
  exists sp, sp ∈ renderHighlightedText "abc" ms /\ span_text sp = "".
Proof.
  split; [reflexivity|]. split; [reflexivity|].
  eexists. split; [apply list_elem_of_here | reflexivity].
Qed.

Lemma nonempty_length s : String.length s <> 0 -> s <> "".
Proof. by intros H ->. Qed.

Lemma highlighted_texts_snoc elements sp :
  highlighted_texts (elements ++ [sp]) =
  highlighted_texts elements ++
  (if decide (span_kind sp = Highlighted) then [span_text sp] else []).
Proof.
  unfold highlighted_texts. rewrite filter_app, fmap_app. f_equal.
  rewrite filter_cons, filter_nil. by destruct (decide _).
Qed.

(** The loop pushes one highlighted span per match, holding the match's
    text, and only non-empty plain spans between them. *)
Lemma forEach_match_spans s : forall ms index elements last,
  Forall (fun m => startIndex m <= String.length s) ms ->
  (Forall plain_nonempty elements ->
   Forall plain_nonempty (forEach_match s ms index elements last).1) /\
  highlighted_texts (forEach_match s ms index elements last).1 =
    highlighted_texts elements ++ (text <$> ms).
Proof.
  induction ms as [|m ms IH]; intros index elements last Hin.
  - simpl. by rewrite app_nil_r.
  - apply Forall_cons in Hin as [Hm Hin]. cbn [forEach_match].
    match goal with |- context [forEach_match s ms (S index) ?els _] =>
      destruct (IH (S index) els (endIndex m) Hin) as [IH1 IH2] end.
    split.
    + intros Hplain. apply IH1. apply Forall_app. split.
      * destruct (Nat.ltb_spec last (startIndex m)) as [Hlt|Hge]; [|done].
        apply Forall_app. split; [done|]. apply Forall_singleton.
        intros _. cbn [span_text]. apply nonempty_length.
        rewrite js_substring_length. lia.
      * apply Forall_singleton. by intros [=].
    + rewrite IH2, highlighted_texts_snoc. cbn [span_kind span_text].
      rewrite decide_True by done.
      destruct (last <? startIndex m).
      * rewrite highlighted_texts_snoc. cbn [span_kind].
        rewrite decide_False by done. by rewrite app_nil_r, <- app_assoc.
      * by rewrite <- app_assoc.
Qed.

(** C9, amended.  For a non-empty text and a non-empty match list whose
    start indices lie inside the text, no plain span is empty, and the
    highlighted spans are the texts of the matches, one per match and in
    order: a highlighted span is empty exactly when its match is.  When
    the text is empty or there is no match, the output is one plain span
    holding the whole text. *)
Theorem highlight_plain_spans_nonempty :
  (forall sampleText ms,
     sampleText <> "" ->
     ms <> [] ->
     Forall (fun m => startIndex m <= String.length sampleText) ms ->
     Forall plain_nonempty (renderHighlightedText sampleText ms) /\
     highlighted_texts (renderHighlightedText sampleText ms) = text <$> ms) /\
  (forall sampleText ms,
     sampleText = "" \/ ms = [] ->
     renderHighlightedText sampleText ms =
     [{| span_key := None; span_kind := Plain; span_text := sampleText |}]).
Proof.
  split.
  - intros s ms Hs Hms Hin. unfold renderHighlightedText.
    replace (falsy s || (length ms =? 0)) with false.
    2:{ symmetry. apply orb_false_iff. split.
        - destruct (falsy s) eqn:Hf; [|done]. by apply falsy_true in Hf.
        - apply Nat.eqb_neq. by destruct ms. }
    destruct (forEach_match_spans s ms 0 [] 0 Hin) as [Hplain Htexts].
    specialize (Hplain (Forall_nil_2 _)).
    destruct (forEach_match s ms 0 [] 0) as [elements last]. simpl in *.
    destruct (Nat.ltb_spec last (String.length s)) as [Hlt|Hge]; [|done].
    split.
    + apply Forall_app. split; [done|]. apply Forall_singleton.
      intros _. cbn [span_text]. apply nonempty_length.
      unfold js_substring_from. rewrite js_substring_length. lia.
    + rewrite highlighted_texts_snoc. cbn [span_kind].
      rewrite decide_False by done. by rewrite app_nil_r.
  - intros s ms [-> | ->]; unfold renderHighlightedText; simpl; [done|].
    by rewrite orb_true_r.
Qed.

Lemma highlight_plain_spans_nonempty_witness :
  let ms := [ {| text := ""; startIndex := 0; endIndex := 0; groups := [] |};
              {| text := "b"; startIndex := 1; endIndex := 2; groups := [] |} ] in
  (Forall plain_nonempty (renderHighlightedText "abc" ms) /\
   highlighted_texts (renderHighlightedText "abc" ms) = [""; "b"]) /\
  renderHighlightedText "" ms =
    [{| span_key := None; span_kind := Plain; span_text := "" |}].
Proof.
  intros ms. split.
  - apply (proj1 highlight_plain_spans_nonempty "abc" ms).
    + discriminate.
    + discriminate.
    + repeat constructor; simpl; lia.
  - apply (proj2 highlight_plain_spans_nonempty "" ms).
    left. reflexivity.
Defined.

(** ** The edit history *)

Lemma handlePatternChange_same value ed :
  history ed !! historyIndex ed = Some value ->
  handlePatternChange value ed =
  {| pattern := value; history := history ed;
     historyIndex := historyIndex ed; cursorPosition := cursorPosition ed |}.
Proof. intros H. unfold handlePatternChange. by rewrite bool_decide_eq_true_2. Qed.

Lemma handlePatternChange_new value ed :
  history ed !! historyIndex ed <> Some value ->
  handlePatternChange value ed =
  {| pattern := value;
     history := take (historyIndex ed + 1) (history ed) ++ [value];
     historyIndex := length (take (historyIndex ed + 1) (history ed) ++ [value]) - 1;
     cursorPosition := cursorPosition ed |}.
Proof. intros H. unfold handlePatternChange. by rewrite bool_decide_eq_false_2. Qed.

(** A recorded edit leaves the cursor on the new value, and in range. *)
Lemma handlePatternChange_inv value ed :
  cursor_in_range (handlePatternChange value ed) /\
  cursor_shows_pattern (handlePatternChange value ed).
Proof.
  unfold cursor_in_range, cursor_shows_pattern.
  destruct (decide (history ed !! historyIndex ed = Some value)) as [Heq|Hne].
  - rewrite handlePatternChange_same by done. simpl.
    split; [|done]. by eapply lookup_lt_Some.
  - rewrite handlePatternChange_new by done. simpl.
    rewrite length_app. simpl. split; [lia|].
    replace (length _ + 1 - 1) with (length (take (historyIndex ed + 1) (history ed)) + 0) by lia.
    by rewrite lookup_app_r, Nat.add_comm, Nat.add_sub by lia.
Qed.

Lemma history_at_lookup h i : i < length h -> h !! i = Some (history_at h i).
Proof.
  intros Hi. unfold history_at.
  destruct (lookup_lt_is_Some_2 h i Hi) as [x ->]. done.
Qed.

(** The editor's own operations keep the whole invariant. *)
Lemma editor_own_step_inv op ed :
  (forall p, op <> SelectFromLibrary p) ->
  cursor_in_range ed -> cursor_shows_pattern ed ->
  cursor_in_range (editor_step op ed) /\
  cursor_shows_pattern (editor_step op ed).
Proof.
  intros Hop Hr Hs. destruct op as [v|t| | |p]; simpl.
  - apply handlePatternChange_inv.
  - unfold handleInsert, cursor_in_range, cursor_shows_pattern. simpl.
    apply handlePatternChange_inv.
  - unfold handleUndo, cursor_in_range, cursor_shows_pattern in *.
    destruct (Nat.ltb_spec 0 (historyIndex ed)); [|done]. simpl.
    split; [lia|]. apply history_at_lookup. lia.
  - unfold handleRedo, cursor_in_range, cursor_shows_pattern in *.
    destruct (Nat.ltb_spec (historyIndex ed) (length (history ed) - 1)); [|done].
    simpl. split; [lia|]. apply history_at_lookup. lia.
  - by destruct (Hop p).
Qed.

(** Every operation keeps the cursor in range. *)
Lemma editor_step_in_range op ed :
  cursor_in_range ed -> cursor_in_range (editor_step op ed).
Proof.
  intros Hr. destruct op as [v|t| | |p]; simpl.
  - apply handlePatternChange_inv.
  - unfold handleInsert, cursor_in_range. simpl. apply handlePatternChange_inv.
  - unfold handleUndo, cursor_in_range in *.
    destruct (Nat.ltb_spec 0 (historyIndex ed)); [|done]. simpl. lia.
  - unfold handleRedo, cursor_in_range in *.
    destruct (Nat.ltb_spec (historyIndex ed) (length (history ed) - 1)); [|done].
    simpl. lia.
  - done.
Qed.

(** C4.  An edit to a value other than [history[historyIndex]] drops the
    entries past the cursor, appends the value and puts the cursor on the
    new last entry.  After typing [a], typing [b], undoing and typing
    [c], the history is ["", a, c]: it no longer holds [b], the cursor is
    on [c], and redo changes nothing. *)
Theorem history_truncates_on_diverge :
  (forall value ed,
     history ed !! historyIndex ed <> Some value ->
     history (handlePatternChange value ed) =
       take (historyIndex ed + 1) (history ed) ++ [value] /\
     historyIndex (handlePatternChange value ed) =
       length (history (handlePatternChange value ed)) - 1 /\
     history (handlePatternChange value ed)
       !! historyIndex (handlePatternChange value ed) = Some value /\
     pattern (handlePatternChange value ed) = value) /\
  (let ed := editor_run [SetPattern "a"; SetPattern "b"; Undo; SetPattern "c"]
               initialEditor in
   history ed = [""; "a"; "c"] /\
   ("b" ∉ history ed) /\
   historyIndex ed = 2 /\
   pattern ed = "c" /\
   handleRedo ed = ed).
Proof.
  split.
  - intros value ed Hne.
    pose proof (handlePatternChange_inv value ed) as [_ Hshow].
    unfold cursor_shows_pattern in Hshow.
    rewrite handlePatternChange_new in * by done. simpl in *. done.
  - set (ed := editor_run _ _).
    assert (ed = {| pattern := "c"; history := [""; "a"; "c"];
                    historyIndex := 2; cursorPosition := None |}) as ->
      by reflexivity.
    simpl. split_and!; try reflexivity.
    rewrite !elem_of_cons, elem_of_nil. intros [H|[H|[H|[]]]]; discriminate H.
Qed.

Lemma history_truncates_on_diverge_witness :
  let ed := {| pattern := "a"; history := [""; "a"; "b"]; historyIndex := 1;
               cursorPosition := None |} in
  history (handlePatternChange "c" ed) = [""; "a"; "c"].
Proof.
  apply (proj1 history_truncates_on_diverge). simpl. discriminate.
Defined.

(** C8.  The cursor stays in range under every operation, and the
    editor's own operations keep [history[historyIndex]] equal to the
    displayed pattern; a selection from the library replaces the pattern
    without touching the history, so that right after it the entry under
    the cursor is still the old pattern. *)
Theorem library_selection_bypasses_history :
  (forall ops, cursor_in_range (editor_run ops initialEditor)) /\
  (forall ops,
     (forall p, SelectFromLibrary p ∉ ops) ->
     cursor_shows_pattern (editor_run ops initialEditor)) /\
  (let ed := editor_run [SelectFromLibrary "\d+"] initialEditor in
   pattern ed = "\d+" /\
   history ed !! historyIndex ed = Some "" /\
   ~ cursor_shows_pattern ed).
Proof.
  assert (Hinit : cursor_in_range initialEditor /\ cursor_shows_pattern initialEditor).
  { split; [unfold cursor_in_range; simpl; lia | done]. }
  split; [|split].
  - intros ops. unfold editor_run. destruct Hinit as [Hr _]. revert Hr.
    generalize initialEditor. induction ops as [|op ops IH]; intros ed Hr; [done|].
    simpl. apply IH. by apply editor_step_in_range.
  - intros ops Hops. unfold editor_run. revert Hinit Hops.
    generalize initialEditor.
    induction ops as [|op ops IH]; intros ed [Hr Hs] Hops; [done|].
    simpl. apply IH.
    + apply editor_own_step_inv; [|done..].
      intros p ->. apply (Hops p). by left.
    + intros p Hp. apply (Hops p). by right.
  - vm_compute. split; [done|]. split; [done|]. discriminate.
Qed.

Lemma library_selection_bypasses_history_witness :
  cursor_shows_pattern
    (editor_run [SetPattern "a"; InsertToken "\d"; Undo; Undo; Redo]
       initialEditor).
Proof.
  apply (proj1 (proj2 library_selection_bypasses_history)).
  intros p. rewrite !elem_of_cons, elem_of_nil.
  intros [H|[H|[H|[H|[H|[]]]]]]; discriminate H.
Defined.

(** ** The pattern library store *)

Lemma id_is_None s e : id_is s e = None <-> e = JNull.
Proof.
  unfold id_is. destruct e as [| | | | |fields]; simpl; try done.
  destruct (assoc "id" fields) as [[]|]; done.
Qed.











Lemma falsy_false s : s <> "" -> falsy s = false.
Proof. by destruct s. Qed.






(* ===================================================================== *)
(** * Part III: further properties of the code                           *)
(* ===================================================================== *)

(** ** The match engine *)

(** A successful [exec], whatever the flags, returns a match of the
    text. *)
Lemma exec_match_inv regex s res regex' :
  matcher_ok (re_matcher regex) ->
  exec regex s = (Some res, regex') ->
  match_inv s (to_match res).
Proof.
  intros Hok. unfold exec.
  destruct (scan _ _ _ _ _) as [[j [e caps]]|] eqn:Hscan; [|done].
  intros [= <- _]. apply scan_found in Hscan as [Hj Hm]. apply Hok in Hm.
  unfold match_inv, to_match. simpl. rewrite substring_length.
  split; [lia|]. f_equal. lia.
Qed.

Lemma new_RegExp_spec P pattern flags regex :
  new_RegExp P pattern (flagsToString flags) = Normal regex ->
  compile P pattern (flagsToString flags) = Normal (re_matcher regex) /\
  re_global regex = global flags /\
  re_sticky regex = sticky flags /\
  lastIndex regex = 0.
Proof.
  unfold new_RegExp. destruct (compile P _ _) as [m|msg]; [|done].
  intros [= <-]. simpl. split; [done|].
  change (global (parseFlags (flagsToString flags)) = global flags /\
          sticky (parseFlags (flagsToString flags)) = sticky flags /\ 0 = 0).
  by rewrite parseFlags_flagsToString.
Qed.

(** X1.  Whatever a run stores in [matches], in global mode or not, is a
    list of matches of the sample text it ran on: each has ordered
    indices inside the text and the slice between them as its text, and
    the list is sorted and non-overlapping. *)
Theorem run_matches_well_formed :
  forall P fuel startTime endTime task st st' log,
    primitive_ok P ->
    runPending P fuel startTime endTime task st = Some (st', log) ->
    Forall (match_inv (run_sampleText task)) (matches st') /\
    non_overlapping 0 (matches st').
Proof.
  intros P fuel t0 t1 task st st' log HP. unfold runPending.
  destruct (new_RegExp P _ _) as [regex|msg] eqn:Hnew.
  2:{ intros [= <- _]. simpl. by split. }
  apply new_RegExp_spec in Hnew as (Hc & Hg & _ & Hli).
  apply HP in Hc.
  destruct (global (run_flags task)).
  - destruct (match_loop _ _ _ _ _) as [[ms lg]|] eqn:Hloop; [|done].
    intros [= <- _]. simpl.
    apply match_loop_matches in Hloop as (new & -> & Hinv & Hno); [|done..].
    simpl. split; [done|]. by rewrite Hli in Hno.
  - unfold match_once.
    destruct (exec regex (run_sampleText task)) as [[res|] r'] eqn:Hexec.
    + intros [= <- _]. simpl.
      pose proof (exec_match_inv _ _ _ _ Hc Hexec) as Hinv.
      split; [by constructor|]. split; [lia|done].
    + intros [= <- _]. simpl. by split.
Qed.

Lemma run_matches_well_formed_witness :
  let ms := [ {| text := "abb"; startIndex := 0; endIndex := 3; groups := [] |};
              {| text := "a"; startIndex := 3; endIndex := 4; groups := [] |} ] in
  Forall (match_inv "abba") ms /\ non_overlapping 0 ms.
Proof.
  intros ms.
  apply (run_matches_well_formed literalPrimitive 6 0 1
           {| run_pattern := "ab*"; run_flags := globalOnly;
              run_sampleText := "abba" |} initialTestArea
           {| matches := ms; executionTime := 1; isValid := true |}
           [Compiled "ab*" "g"; Executed "abba" 0; Executed "abba" 3;
            Executed "abba" 4]).
  - apply literalPrimitive_ok.
  - reflexivity.
Defined.

Lemma starts_increase_weaken a b ms :
  b <= a -> starts_increase a ms -> starts_increase b ms.
Proof.
  destruct ms as [|m ms]; simpl; [done|]. intros ? [? ?]. split; [lia|done].
Qed.

Lemma starts_increase_lookup ms : forall from i j mi mj,
  starts_increase from ms ->
  i < j -> ms !! i = Some mi -> ms !! j = Some mj ->
  from <= startIndex mi /\ startIndex mi < startIndex mj.
Proof.
  induction ms as [|m ms IH]; intros from i j mi mj Hinc Hij Hi Hj; [done|].
  destruct Hinc as [Hfrom Hinc]. destruct j as [|j]; [lia|].
  simpl in Hj. destruct i as [|i].
  - injection Hi as <-. split; [done|].
    destruct j as [|j].
    + destruct ms as [|m' ms']; [done|]. injection Hj as <-.
      destruct Hinc as [? _]. lia.
    + destruct ms as [|m' ms']; [done|].
      destruct (IH (S (startIndex m)) 0 (S j) m' mj Hinc) as [? ?];
        [lia | done | done | lia].
  - simpl in Hi.
    destruct (IH (S (startIndex m)) i j mi mj Hinc) as [? ?];
      [lia | done | done |]. split; lia.
Qed.

(** What the global loop adds: matches at strictly increasing starts, at
    most one per position left in the text, with one call of [exec] more
    than there are matches. *)
Lemma match_loop_count fuel : forall regex sampleText allMatches log ms log',
  matcher_ok (re_matcher regex) ->
  re_global regex = true ->
  match_loop fuel regex sampleText allMatches log = Some (ms, log') ->
  exists new,
    ms = allMatches ++ new /\
    starts_increase (lastIndex regex) new /\
    length new <= String.length sampleText + 1 - lastIndex regex /\
    length log' = length log + length new + 1.
Proof.
  induction fuel as [|fuel IH]; intros regex s acc log ms log' Hok Hg; [done|].
  simpl. destruct (loop_body regex s) as [[m|] regex'] eqn:Hbody.
  - pose proof (loop_body_progress regex s Hok Hg m regex' Hbody)
      as (Hs & He & Hz & Hnz & Hlt & Hm & Hg').
    pose proof (loop_body_match_inv regex s Hok Hg m regex' Hbody)
      as [[Hse Hel] _].
    intros Hloop.
    apply IH in Hloop as (new & -> & Hinc & Hlen & Hlog);
      [|by rewrite Hm | done].
    exists (m :: new). split; [by rewrite <- app_assoc|].
    split; [|split].
    + simpl. split; [done|].
      apply (starts_increase_weaken (lastIndex regex')); [|done].
      destruct (decide (String.length (text m) = 0)) as [Hl|Hl].
      * rewrite (Hz Hl). lia.
      * rewrite (Hnz Hl).
        assert (endIndex m = startIndex m + String.length (text m)); [|lia].
        unfold loop_body in Hbody.
        destruct (exec regex s) as [[res|] r1]; [|done].
        by injection Hbody as <- _.
    + simpl. lia.
    + rewrite Hlog, length_app. simpl. lia.
  - intros [= <- <-]. exists []. rewrite app_nil_r, length_app. simpl.
    split; [done|]. split; [done|]. split; lia.
Qed.

(** X2.  For a matcher that honours the host's contract (a match tried
    at a position ends at or after it, inside the text), the matches of
    the global loop start at strictly increasing positions, so there are
    at most [length + 1] of them, and [exec] is called exactly once more
    than there are matches. *)
Theorem global_loop_match_count :
  forall regex sampleText fuel ms log,
    matcher_ok (re_matcher regex) ->
    re_global regex = true ->
    match_loop fuel regex sampleText [] [] = Some (ms, log) ->
    (forall i j mi mj,
       i < j -> ms !! i = Some mi -> ms !! j = Some mj ->
       startIndex mi < startIndex mj) /\
    length ms <= String.length sampleText + 1 /\
    length log = length ms + 1.
Proof.
  intros regex s fuel ms log Hok Hg Hloop.
  apply match_loop_count in Hloop as (new & -> & Hinc & Hlen & Hlog);
    [|done..].
  simpl in *. split; [|split; [lia | done]].
  intros i j mi mj Hij Hi Hj.
  by destruct (starts_increase_lookup new _ i j mi mj Hinc Hij Hi Hj).
Qed.

Lemma global_loop_match_count_witness :
  let ms := [ {| text := ""; startIndex := 0; endIndex := 0; groups := [] |};
              {| text := ""; startIndex := 1; endIndex := 1; groups := [] |};
              {| text := ""; startIndex := 2; endIndex := 2; groups := [] |};
              {| text := ""; startIndex := 3; endIndex := 3; groups := [] |} ] in
  (forall i j mi mj,
     i < j -> ms !! i = Some mi -> ms !! j = Some mj ->
     startIndex mi < startIndex mj) /\
  length ms <= String.length "abc" + 1 /\
  5 = length ms + 1.
Proof.
  intros ms.
  apply (global_loop_match_count x_star_global "abc" 5 ms
           [ Executed "abc" 0; Executed "abc" 1; Executed "abc" 2;
             Executed "abc" 3; Executed "abc" 4 ]).
  - apply atoms_matcher_ok.
  - reflexivity.
  - reflexivity.
Defined.




(** ** The debounced session *)

(** Once the pattern compiles, the state a run leaves depends on the
    state it started from only through [isValid]. *)
Lemma runPending_compiled P fuel t0 t1 task st regex :
  new_RegExp P (run_pattern task) (flagsToString (run_flags task)) = Normal regex ->
  forall st2 log,
    runPending P fuel t0 t1 task st = Some (st2, log) ->
    st2 = {| matches := matches st2; executionTime := (t1 - t0)%Z;
             isValid := isValid st |} /\
    forall st', runPending P fuel t0 t1 task st' =
      Some ({| matches := matches st2; executionTime := (t1 - t0)%Z;
               isValid := isValid st' |}, log).
Proof.
  intros Hnew st2 log. unfold runPending. rewrite Hnew.
  destruct (global (run_flags task)).
  - destruct (match_loop _ _ _ _ _) as [[ms lg]|]; [|done].
    intros [= <- <-]. by split.
  - destruct (match_once _ _) as [ms lg].
    intros [= <- <-]. by split.
Qed.

Lemma burst_snoc P changes last s :
  burst P (changes ++ [last]) s = onInputsChange P last (burst P changes s).
Proof. unfold burst. by rewrite foldl_app. Qed.

Lemma onInputsChange_pending P i s s' :
  ta_pending (onInputsChange P i s) = ta_pending (onInputsChange P i s').
Proof.
  unfold onInputsChange, matchEffect.
  destruct (falsy _ || falsy _); [done|].
  by destruct (validateRegex P _ _) as [[msg|] log].
Qed.

(** What a change of the inputs leaves does not depend on the state
    before it, the flag [isValid] of a scheduled run apart. *)
Lemma onInputsChange_cases P i s :
  (ta_pending (onInputsChange P i s) = None /\
   matches (ta_state (onInputsChange P i s)) = []) \/
  (exists regex,
     new_RegExp P (in_pattern i) (flagsToString (in_flags i)) = Normal regex /\
     forall s',
       onInputsChange P i s' =
       {| ta_state := setIsValid (ta_state s') true;
          ta_pending := Some {| run_pattern := in_pattern i;
                                run_flags := in_flags i;
                                run_sampleText := in_sampleText i |} |}).
Proof.
  unfold onInputsChange, matchEffect, validateRegex.
  destruct (falsy (in_pattern i)) eqn:Hp; [by left|].
  destruct (falsy (in_sampleText i)) eqn:Hs; [by left|]. simpl.
  destruct (new_RegExp P (in_pattern i) (flagsToString (in_flags i)))
    as [regex|msg] eqn:Hnew; [|by left].
  right. by exists regex.
Qed.

(** X5.  Only the last input of a burst of changes is ever run.  The
    pending slot after the burst is the one the last change alone would
    leave, whatever came before.  When the timer then returns, the
    matches it leaves are the ones a fresh component would show for the
    last input alone; nothing is pending any more, and a second firing of
    the timer changes nothing. *)
Theorem burst_runs_last_input_only :
  (forall P changes last s s',
     ta_pending (burst P (changes ++ [last]) s) =
     ta_pending (onInputsChange P last s')) /\
  (forall P changes last s fuel startTime endTime final,
     onTimer P fuel startTime endTime (burst P (changes ++ [last]) s)
       = Some final ->
     exists fresh,
       onTimer P fuel startTime endTime (onInputsChange P last initialSession)
         = Some fresh /\
       matches (ta_state final) = matches (ta_state fresh) /\
       ta_pending final = None /\
       onTimer P fuel startTime endTime final = Some final).
Proof.
  split.
  { intros P changes last s s'. rewrite burst_snoc.
    apply onInputsChange_pending. }
  intros P changes last s fuel t0 t1 final.
  rewrite burst_snoc. generalize (burst P changes s). intros s0.
  destruct (onInputsChange_cases P last s0) as [[Hp0 Hm0]|(regex & Hnew & Hstep)].
  - destruct (onInputsChange_cases P last initialSession)
      as [[Hp1 Hm1]|(regex & Hnew & Hstep)].
    + unfold onTimer at 1. rewrite Hp0. intros [= <-].
      eexists. unfold onTimer. rewrite Hp1, Hp0. split; [done|].
      by rewrite Hm0, Hm1.
    + by rewrite (Hstep s0) in Hp0.
  - rewrite !Hstep. unfold onTimer. simpl.
    set (task := {| run_pattern := in_pattern last; run_flags := in_flags last;
                    run_sampleText := in_sampleText last |}).
    destruct (runPending P fuel t0 t1 task (setIsValid (ta_state s0) true))
      as [[st2 log2]|] eqn:Hrun; [|done].
    intros [= <-].
    destruct (runPending_compiled P fuel t0 t1 task _ regex Hnew _ _ Hrun)
      as [_ Hany].
    rewrite Hany. eexists. split; [done|]. simpl. done.
Qed.

Lemma burst_runs_last_input_only_witness :
  let bad := {| in_pattern := "("; in_flags := globalOnly;
                in_sampleText := "abcb" |} in
  let other := {| in_pattern := "a*"; in_flags := globalOnly;
                  in_sampleText := "abcb" |} in
  let last := {| in_pattern := "b"; in_flags := globalOnly;
                 in_sampleText := "abcb" |} in
  let final :=
    {| ta_state :=
         {| matches :=
              [ {| text := "b"; startIndex := 1; endIndex := 2; groups := [] |};
                {| text := "b"; startIndex := 3; endIndex := 4; groups := [] |} ];
            executionTime := 7; isValid := true |};
       ta_pending := None |} in
  exists fresh,
    onTimer literalPrimitive 6 3 10
      (onInputsChange literalPrimitive last initialSession) = Some fresh /\
    matches (ta_state final) = matches (ta_state fresh) /\
    ta_pending final = None /\
    onTimer literalPrimitive 6 3 10 final = Some final.
Proof.
  intros bad other last final.
  apply (proj2 burst_runs_last_input_only literalPrimitive [bad; other] last
           initialSession 6 3%Z 10%Z final).
  reflexivity.
Defined.

(** ** The edit history, continued *)

Lemma no_adjacent_duplicates_take n h :
  no_adjacent_duplicates h -> no_adjacent_duplicates (take n h).
Proof.
  revert n. induction h as [|a h IH]; intros n Hh; [by destruct n|].
  destruct n as [|n]; [done|].
  destruct h as [|b h]; [by destruct n|].
  destruct Hh as [Hab Hh]. destruct n as [|n]; [done|].
  split; [done|]. by apply (IH (S n)).
Qed.

Lemma no_adjacent_duplicates_snoc h v :
  no_adjacent_duplicates h -> last h <> Some v ->
  no_adjacent_duplicates (h ++ [v]).
Proof.
  induction h as [|a h IH]; intros Hh Hlast; [done|].
  destruct h as [|b h].
  - simpl in *. split; [congruence | done].
  - destruct Hh as [Hab Hh]. split; [done|]. by apply IH.
Qed.

Lemma last_take_lookup (h : list string) i :
  i < length h -> last (take (i + 1) h) = h !! i.
Proof.
  intros Hi. rewrite last_lookup, length_take, Nat.min_l by lia.
  replace (Init.Nat.pred (i + 1)) with i by lia.
  apply lookup_take_lt. lia.
Qed.

Lemma handlePatternChange_no_duplicates v ed :
  cursor_in_range ed ->
  no_adjacent_duplicates (history ed) ->
  no_adjacent_duplicates (history (handlePatternChange v ed)).
Proof.
  intros Hr Hh.
  destruct (decide (history ed !! historyIndex ed = Some v)) as [Heq|Hne].
  - by rewrite handlePatternChange_same.
  - rewrite handlePatternChange_new by done. simpl.
    apply no_adjacent_duplicates_snoc.
    + by apply no_adjacent_duplicates_take.
    + by rewrite last_take_lookup.
Qed.

Lemma editor_step_no_duplicates op ed :
  cursor_in_range ed ->
  no_adjacent_duplicates (history ed) ->
  no_adjacent_duplicates (history (editor_step op ed)).
Proof.
  intros Hr Hh. destruct op as [v|t| | |p]; simpl.
  - by apply handlePatternChange_no_duplicates.
  - by apply handlePatternChange_no_duplicates.
  - unfold handleUndo. by destruct (0 <? historyIndex ed).
  - unfold handleRedo. by destruct (historyIndex ed <? _).
  - done.
Qed.

(** X6.  The history never holds the same value twice in a row: whatever
    is typed, inserted, undone, redone or selected from the library,
    starting from the first render, two neighbouring entries differ. *)
Theorem history_has_no_adjacent_duplicates :
  forall ops, no_adjacent_duplicates (history (editor_run ops initialEditor)).
Proof.
  intros ops. unfold editor_run.
  assert (Hinit : cursor_in_range initialEditor /\
                  no_adjacent_duplicates (history initialEditor)).
  { split; [unfold cursor_in_range; simpl; lia | done]. }
  revert Hinit. generalize initialEditor.
  induction ops as [|op ops IH]; intros ed [Hr Hh]; [done|].
  simpl. apply IH. split.
  - by apply editor_step_in_range.
  - by apply editor_step_no_duplicates.
Qed.

(** X7.  Undo and redo are inverse to each other on a state that keeps
    the history invariant: away from the first entry, redo after undo
    gives the state back, and away from the last entry, undo after redo
    does. *)
Theorem undo_redo_inverse :
  forall ed,
    cursor_in_range ed ->
    cursor_shows_pattern ed ->
    (0 < historyIndex ed -> handleRedo (handleUndo ed) = ed) /\
    (historyIndex ed < length (history ed) - 1 ->
     handleUndo (handleRedo ed) = ed).
Proof.
  intros [p h i c] Hr Hs. unfold cursor_in_range, cursor_shows_pattern in *.
  simpl in *. split; intros Hi.
  - unfold handleUndo. simpl.
    destruct (Nat.ltb_spec 0 i); [|lia]. unfold handleRedo. simpl.
    destruct (Nat.ltb_spec (i - 1) (length h - 1)); [|lia].
    replace (i - 1 + 1) with i by lia.
    f_equal. unfold history_at. by rewrite Hs.
  - unfold handleRedo. simpl.
    destruct (Nat.ltb_spec i (length h - 1)); [|lia]. unfold handleUndo. simpl.
    destruct (Nat.ltb_spec 0 (i + 1)); [|lia].
    replace (i + 1 - 1) with i by lia.
    f_equal. unfold history_at. by rewrite Hs.
Qed.

Lemma undo_redo_inverse_witness :
  let ed := {| pattern := "a"; history := [""; "a"; "ab"]; historyIndex := 1;
               cursorPosition := None |} in
  handleRedo (handleUndo ed) = ed /\ handleUndo (handleRedo ed) = ed.
Proof.
  intros ed.
  destruct (undo_redo_inverse ed) as [H1 H2].
  - unfold cursor_in_range. simpl. lia.
  - reflexivity.
  - split; [apply H1 | apply H2]; simpl; lia.
Defined.

(** X8.  Undo takes back a recorded edit.  On a state whose cursor is in
    range and stands on the displayed pattern (typing, insertion, undo and
    redo keep it so; a selection from the library does not), after an edit
    to a value other than the entry under the cursor, undo shows the
    pattern that was displayed before, redo then shows the new value again
    and leaves exactly the state after the edit, and right after the edit
    redo has nothing to do. *)
Theorem undo_reverts_edit :
  forall value ed,
    cursor_in_range ed ->
    cursor_shows_pattern ed ->
    history ed !! historyIndex ed <> Some value ->
    pattern (handleUndo (handlePatternChange value ed)) = pattern ed /\
    handleRedo (handleUndo (handlePatternChange value ed)) =
      handlePatternChange value ed /\
    handleRedo (handlePatternChange value ed) = handlePatternChange value ed.
Proof.
  intros v [p h i c] Hr Hs Hne.
  unfold cursor_in_range, cursor_shows_pattern in *. simpl in *.
  rewrite handlePatternChange_new by done. simpl.
  assert (Hlen : length (take (i + 1) h ++ [v]) = i + 2).
  { rewrite length_app, length_take. simpl. lia. }
  unfold handleUndo, handleRedo. simpl. rewrite !Hlen.
  destruct (Nat.ltb_spec 0 (i + 2 - 1)); [|lia]. simpl. rewrite Hlen.
  destruct (Nat.ltb_spec (i + 2 - 1 - 1) (i + 2 - 1)); [|lia].
  destruct (Nat.ltb_spec (i + 2 - 1) (i + 2 - 1)); [lia|].
  replace (i + 2 - 1 - 1) with i by lia.
  assert (Hi : (take (i + 1) h ++ [v]) !! i = Some p).
  { rewrite lookup_app_l by (rewrite length_take; lia).
    rewrite lookup_take_lt by lia. done. }
  assert (HSi : (take (i + 1) h ++ [v]) !! (i + 1) = Some v).
  { rewrite lookup_app_r by (rewrite length_take; lia).
    rewrite length_take. by replace (i + 1 - (i + 1) `min` length h) with 0 by lia. }
  replace (S i) with (i + 1) by lia.
  unfold history_at. rewrite Hi, HSi. simpl.
  split; [done|]. split; [|done].
  f_equal. lia.
Qed.

Lemma undo_reverts_edit_witness :
  let ed := {| pattern := "a"; history := [""; "a"; "ab"]; historyIndex := 1;
               cursorPosition := None |} in
  pattern (handleUndo (handlePatternChange "ac" ed)) = "a" /\
  handleRedo (handleUndo (handlePatternChange "ac" ed)) =
    handlePatternChange "ac" ed /\
  handleRedo (handlePatternChange "ac" ed) = handlePatternChange "ac" ed.
Proof.
  intros ed. apply (undo_reverts_edit "ac" ed).
  - unfold cursor_in_range. simpl. lia.
  - reflexivity.
  - simpl. discriminate.
Defined.

(** X9.  Recording the same value twice is the same as recording it
    once: a repeated change event adds no history entry. *)
Theorem pattern_change_idempotent :
  forall value ed,
    handlePatternChange value (handlePatternChange value ed) =
    handlePatternChange value ed.
Proof.
  intros v ed.
  destruct (handlePatternChange_inv v ed) as [_ Hshow].
  unfold cursor_shows_pattern in Hshow.
  assert (Hp : pattern (handlePatternChange v ed) = v).
  { unfold handlePatternChange. by destruct (bool_decide _). }
  rewrite Hp in Hshow.
  rewrite (handlePatternChange_same v (handlePatternChange v ed)) by done.
  rewrite <- Hp at 1. by destruct (handlePatternChange v ed).
Qed.

(** ** Insertion at the caret *)

Lemma js_substring_prefix_chars s a :
  chars (js_substring s 0 a) = take a (chars s).
Proof.
  unfold js_substring. rewrite chars_substring.
  rewrite Nat.min_0_l, Nat.min_0_l, drop_0, Nat.max_0_l, Nat.sub_0_r.
  rewrite <- chars_length.
  destruct (Nat.le_ge_cases a (length (chars s))).
  - by rewrite Nat.min_l.
  - rewrite Nat.min_r by done. by rewrite !take_ge by lia.
Qed.

Lemma js_substring_from_chars s b :
  chars (js_substring_from s b) = drop b (chars s).
Proof.
  unfold js_substring_from, js_substring. rewrite chars_substring.
  rewrite Nat.min_id, <- chars_length.
  destruct (Nat.le_ge_cases b (length (chars s))).
  - rewrite (Nat.min_l b) by done. rewrite Nat.min_l, Nat.max_r by done.
    apply take_ge. rewrite length_drop. lia.
  - rewrite (Nat.min_r b) by done. rewrite Nat.min_id, Nat.max_id.
    rewrite Nat.sub_diag, take_0. symmetry. apply drop_ge. lia.
Qed.

Lemma handlePatternChange_pattern v ed : pattern (handlePatternChange v ed) = v.
Proof. unfold handlePatternChange. by destruct (bool_decide _). Qed.

Lemma handleInsert_pattern token ed :
  chars (pattern (handleInsert token ed)) =
  take (from_option fst (String.length (pattern ed)) (cursorPosition ed))
       (chars (pattern ed)) ++
  chars token ++
  drop (from_option snd (String.length (pattern ed)) (cursorPosition ed))
       (chars (pattern ed)).
Proof.
  unfold handleInsert. cbn [pattern]. rewrite handlePatternChange_pattern.
  by rewrite !chars_append, js_substring_prefix_chars, js_substring_from_chars.
Qed.

(** X10.  An insertion splices the token into the pattern at the
    remembered range: what lies before the start of the range and after
    its end is kept, the selected part is replaced by the token, and the
    remembered caret is put right after the token.  With no remembered
    range the token goes to the end of the pattern. *)
Theorem insert_splices_at_caret :
  (forall token p h i a b,
     let ed := {| pattern := p; history := h; historyIndex := i;
                  cursorPosition := Some (a, b) |} in
     chars (pattern (handleInsert token ed)) =
       take a (chars p) ++ chars token ++ drop b (chars p) /\
     cursorPosition (handleInsert token ed) =
       Some (a + String.length token, a + String.length token)) /\
  (forall token p h i,
     let ed := {| pattern := p; history := h; historyIndex := i;
                  cursorPosition := None |} in
     pattern (handleInsert token ed) = p +:+ token /\
     cursorPosition (handleInsert token ed) =
       Some (String.length p + String.length token,
             String.length p + String.length token)).
Proof.
  split.
  - intros token p h i a b ed. split; [|done].
    by rewrite handleInsert_pattern.
  - intros token p h i ed. split; [|done].
    apply chars_inj. rewrite handleInsert_pattern. simpl.
    rewrite chars_append, <- chars_length.
    by rewrite take_ge, drop_ge, app_nil_r by lia.
Qed.

(** X11.  Insertions chain from left to right: when the remembered
    caret starts inside the pattern (or there is none), inserting one
    token and then another shows the same pattern, with the same caret,
    as inserting the two tokens joined. *)
Theorem chained_inserts_compose :
  forall t1 t2 ed,
    from_option fst (String.length (pattern ed)) (cursorPosition ed)
      <= String.length (pattern ed) ->
    pattern (handleInsert t2 (handleInsert t1 ed)) =
      pattern (handleInsert (t1 +:+ t2) ed) /\
    cursorPosition (handleInsert t2 (handleInsert t1 ed)) =
      cursorPosition (handleInsert (t1 +:+ t2) ed).
Proof.
  intros t1 t2 ed Ha.
  set (a := from_option fst (String.length (pattern ed)) (cursorPosition ed)) in *.
  set (b := from_option snd (String.length (pattern ed)) (cursorPosition ed)).
  assert (Hc1 : cursorPosition (handleInsert t1 ed) =
                Some (a + String.length t1, a + String.length t1)) by done.
  split.
  - apply chars_inj. rewrite !handleInsert_pattern, Hc1. simpl.
    fold a b. rewrite chars_append.
    rewrite <- chars_length in Ha.
    assert (Hla : length (take a (chars (pattern ed))) = a)
      by (rewrite length_take; lia).
    rewrite (app_assoc (take a _) (chars t1)).
    rewrite take_app_length', drop_app_length'
      by (rewrite length_app, Hla, chars_length; done).
    by rewrite <- !app_assoc.
  - unfold handleInsert at 1 3. cbn [cursorPosition]. rewrite Hc1. simpl.
    fold a. rewrite <- !chars_length, chars_append, length_app. f_equal.
    f_equal; lia.
Qed.

Lemma chained_inserts_compose_witness :
  let ed := {| pattern := "ab"; history := [""; "ab"]; historyIndex := 1;
               cursorPosition := Some (1, 1) |} in
  pattern (handleInsert "+" (handleInsert "\d" ed)) =
    pattern (handleInsert "\d+" ed) /\
  cursorPosition (handleInsert "+" (handleInsert "\d" ed)) =
    cursorPosition (handleInsert "\d+" ed).
Proof.
  intros ed. apply (chained_inserts_compose "\d" "+" ed). simpl. lia.
Defined.

(** X12.  The editor's insertion does to the pattern what
    [insertAtCursor] does to a textarea: for a textarea that holds the
    pattern, with its selection starting inside it, inserting a token
    through the remembered caret gives the value and the collapsed
    selection that [insertAtCursor] leaves in the textarea. *)
Theorem insert_agrees_with_insertAtCursor :
  forall textarea ed token,
    tx_value textarea = pattern ed ->
    tx_selectionStart textarea <= String.length (tx_value textarea) ->
    pattern (handleInsert token (rememberCaret textarea ed)) =
      tx_value (insertAtCursor textarea token) /\
    cursorPosition (handleInsert token (rememberCaret textarea ed)) =
      Some (tx_selectionStart (insertAtCursor textarea token),
            tx_selectionEnd (insertAtCursor textarea token)) /\
    tx_selectionStart (insertAtCursor textarea token) =
      tx_selectionStart textarea + String.length token.
Proof.
  intros [v a b f] ed token Hv Ha. simpl in *. subst v.
  assert (Hval : pattern (handleInsert token (rememberCaret
                   {| tx_value := pattern ed; tx_selectionStart := a;
                      tx_selectionEnd := b; tx_focused := f |} ed)) =
                 js_substring (pattern ed) 0 a +:+ token +:+
                 js_substring_from (pattern ed) b).
  { unfold handleInsert. cbn [pattern]. by rewrite handlePatternChange_pattern. }
  assert (Hcaret : (a + String.length token) `min`
             String.length (js_substring (pattern ed) 0 a +:+ token +:+
                            js_substring_from (pattern ed) b) =
           a + String.length token).
  { apply Nat.min_l. rewrite <- !chars_length, !chars_append, !length_app.
    rewrite js_substring_prefix_chars, length_take, !chars_length. lia. }
  split; [done|]. unfold insertAtCursor. simpl. rewrite Hcaret. done.
Qed.

Lemma insert_agrees_with_insertAtCursor_witness :
  let textarea := {| tx_value := "a|b"; tx_selectionStart := 1;
                     tx_selectionEnd := 2; tx_focused := false |} in
  let ed := {| pattern := "a|b"; history := [""; "a|b"]; historyIndex := 1;
               cursorPosition := None |} in
  pattern (handleInsert "\d" (rememberCaret textarea ed)) =
    tx_value (insertAtCursor textarea "\d") /\
  cursorPosition (handleInsert "\d" (rememberCaret textarea ed)) =
    Some (tx_selectionStart (insertAtCursor textarea "\d"),
          tx_selectionEnd (insertAtCursor textarea "\d")) /\
  tx_selectionStart (insertAtCursor textarea "\d") = 1 + String.length "\d".
Proof.
  intros textarea ed.
  apply (insert_agrees_with_insertAtCursor textarea ed "\d").
  - reflexivity.
  - simpl. lia.
Defined.

(** ** Flags and shareable links *)

Lemma flag_in_string f c :
  c ∈ chars (flagsToString f) <->
  c ∈ canonicalFlags /\ flag_of_code f c = true.
Proof.
  rewrite flagsToString_canonical, list_elem_of_filter. tauto.
Qed.

(** X13.  Ticking or unticking one flag changes exactly its code in the
    flag string: afterwards the code of that flag is present exactly when
    the box is ticked, and every other character is present exactly when
    it was before. *)
Theorem flag_change_touches_one_code :
  forall flags flag checked c,
    c ∈ chars (flagsToString (handleFlagChange flags flag checked)) <->
    if decide (c = flag_code flag) then checked = true
    else c ∈ chars (flagsToString flags).
Proof.
  intros flags flag checked c.
  destruct (decide (c = flag_code flag)) as [->|Hne]; rewrite !flag_in_string.
  - destruct flag; simpl; (split; [tauto|]); intros ->;
      (split; [|done]); unfold canonicalFlags;
      rewrite !elem_of_cons; tauto.
  - assert (Hcases : c ∈ canonicalFlags ->
              c = "g"%char \/ c = "i"%char \/ c = "m"%char \/
              c = "s"%char \/ c = "u"%char \/ c = "y"%char).
    { unfold canonicalFlags. rewrite !elem_of_cons, elem_of_nil. tauto. }
    split; intros [Hc Hf]; (split; [done|]);
      destruct (Hcases Hc) as [->|[->|[->|[->|[->| ->]]]]];
      destruct flag; simpl in *; try done.
Qed.

Lemma flagsToString_empty f : flagsToString f = "" <-> f = noFlags.
Proof.
  split; [|by intros ->].
  destruct f as [[] [] [] [] [] []]; simpl; try discriminate. done.
Qed.

(** X14.  When the decoding of a link returns the object that
    [handleShare] encoded, the effect restores the pattern unless it is
    empty, and restores the flags exactly when at least one flag is set: a
    link shared with no flag set carries an empty flag string, which the
    effect skips, so that the flags stay as they were; on a fresh page
    these are the initial flags, where [global] is on. *)
Theorem decoded_link_restores_pattern_and_flags :
  (forall pattern flags data app,
     data = handleShare pattern flags ->
     loadShared data app =
     {| app_pattern := if falsy pattern then app_pattern app else pattern;
        app_flags := if falsy (flagsToString flags) then app_flags app
                     else flags |}) /\
  (forall flags, falsy (flagsToString flags) = true <-> flags = noFlags) /\
  (forall pattern data,
     pattern <> "" ->
     data = handleShare pattern noFlags ->
     loadShared data initialApp =
     {| app_pattern := pattern; app_flags := globalOnly |}).
Proof.
  split; [|split].
  - intros p f data app ->. unfold loadShared, handleShare. simpl.
    destruct (falsy (flagsToString f)) eqn:Hf.
    + by destruct (falsy p), app.
    + rewrite parseFlags_flagsToString. by destruct (falsy p).
  - intros f. rewrite falsy_true. apply flagsToString_empty.
  - intros p data Hp ->. unfold loadShared, handleShare. simpl.
    by rewrite (falsy_false _ Hp).
Qed.

Lemma decoded_link_restores_pattern_and_flags_witness :
  loadShared
    {| shared_pattern := "\d+"; shared_flags := "i" |}
    {| app_pattern := "old"; app_flags := globalOnly |} =
  {| app_pattern := "\d+";
     app_flags := handleFlagChange noFlags FignoreCase true |} /\
  loadShared {| shared_pattern := "\d+"; shared_flags := "" |} initialApp =
  {| app_pattern := "\d+"; app_flags := globalOnly |}.
Proof.
  split.
  - apply (proj1 decoded_link_restores_pattern_and_flags "\d+"
             (handleFlagChange noFlags FignoreCase true)).
    reflexivity.
  - apply (proj2 (proj2 decoded_link_restores_pattern_and_flags) "\d+").
    + discriminate.
    + reflexivity.
Defined.

(** ** The pattern library store, continued *)

Lemma remove_entries_total i l :
  JNull ∉ l ->
  remove_entries i l = Some (filter (fun e => id_matches i e = false) l).
Proof.
  induction l as [|e l IH]; intros Hnull; [done|].
  apply not_elem_of_cons in Hnull as [Hne Hnull].
  simpl. fold (remove_entries i l). rewrite IH by done.
  rewrite filter_cons.
  destruct (decide (id_matches i e = false)) as [Hd|Hd];
    unfold id_matches in Hd;
    destruct (id_is i e) as [[]|] eqn:Hid; try done.
  apply id_is_None in Hid. congruence.
Qed.

(** X15.  Deleting a marked id removes every entry of the user set that
    has this id, however many there are, keeps all the others in their
    order, writes the result to storage and leaves the dialog, the form
    and the entry being edited alone. *)
Theorem delete_removes_entries_with_id :
  forall patternId st,
    startsWith patternId "user-" = true ->
    JNull ∉ userPatterns st ->
    exists st',
      handleDeletePattern patternId st = Some st' /\
      userPatterns st' =
        filter (fun e => id_matches patternId e = false) (userPatterns st) /\
      (forall e, e ∈ userPatterns st' -> id_matches patternId e = false) /\
      localStorage st' = Some (JArr (userPatterns st')) /\
      isDialogOpen st' = isDialogOpen st /\
      editingPattern st' = editingPattern st /\
      formData st' = formData st.
Proof.
  intros i st Hi Hnull. unfold handleDeletePattern. rewrite Hi. simpl.
  rewrite remove_entries_total by done. eexists. split; [done|]. simpl.
  split; [done|]. split; [|done].
  intros e He. by apply list_elem_of_filter in He as [? _].
Qed.

Lemma delete_removes_entries_with_id_witness :
  let a := to_json {| id := "user-1"; name := "a"; rx_pattern := "x";
                      description := ""; category := None |} in
  let b := to_json {| id := "user-2"; name := "b"; rx_pattern := "y";
                      description := ""; category := None |} in
  let st := setUserPatterns initialLibrary [a; b; a] in
  exists st',
    handleDeletePattern "user-1" st = Some st' /\
    userPatterns st' =
      filter (fun e => id_matches "user-1" e = false) (userPatterns st) /\
    (forall e, e ∈ userPatterns st' -> id_matches "user-1" e = false) /\
    localStorage st' = Some (JArr (userPatterns st')) /\
    isDialogOpen st' = isDialogOpen st /\
    editingPattern st' = editingPattern st /\
    formData st' = formData st.
Proof.
  intros a b st. apply (delete_removes_entries_with_id "user-1" st).
  - reflexivity.
  - simpl. rewrite !elem_of_cons, elem_of_nil.
    intros [H|[H|[H|[]]]]; discriminate H.
Defined.








Lemma assoc_assign_ne k k' v fields :
  k <> k' -> assoc k (assign k' v fields) = assoc k fields.
Proof.
  intros Hne. induction fields as [|[k0 v0] fields IH]; simpl.
  - destruct (String.eqb_spec k k'); [done|done].
  - destruct (String.eqb_spec k' k0) as [->|Hk0]; simpl.
    + destruct (String.eqb_spec k k0); [done|done].
    + destruct (String.eqb_spec k k0); [done|]. apply IH.
Qed.

Lemma with_form_id f e : prop (with_form f e) "id" = prop e "id".
Proof.
  destruct e as [| | | | |fields]; try done. simpl.
  by rewrite !assoc_assign_ne.
Qed.

Lemma update_entries_ids i f : forall l l',
  update_entries i f l = Some l' -> entry_ids l' = entry_ids l.
Proof.
  unfold update_entries, entry_ids.
  induction l as [|e l IH]; intros l'; cbn [mapM].
  - by intros [= <-].
  - destruct (id_is i e) as [b|] eqn:Hid; [|done].
    destruct (mapM _ l) as [k|] eqn:Hk; [|by destruct b].
    specialize (IH k eq_refl).
    destruct b; intros [= <-]; rewrite !fmap_cons, IH; [|done].
    by rewrite with_form_id.
Qed.

(** X19.  Saving an edit never changes which ids the user set holds:
    whether the save is dropped or goes through, the entries keep their
    number, their order and their [id] properties. *)
Theorem save_edit_keeps_ids :
  forall now st st' ep,
    editingPattern st = Some ep ->
    handleSavePattern now st = Some st' ->
    entry_ids (userPatterns st') = entry_ids (userPatterns st) /\
    length (userPatterns st') = length (userPatterns st).
Proof.
  intros now st st' ep Hed Hsave.
  assert (Hids : entry_ids (userPatterns st') = entry_ids (userPatterns st)).
  { unfold handleSavePattern in Hsave. rewrite Hed in Hsave.
    destruct (falsy _ || falsy _); [by injection Hsave as <-|].
    destruct (update_entries _ _ _) as [ups|] eqn:Hups; [|done].
    injection Hsave as <-. simpl. by eapply update_entries_ids. }
  split; [done|].
  apply (f_equal length) in Hids. unfold entry_ids in Hids.
  by rewrite !length_fmap in Hids.
Qed.

Lemma save_edit_keeps_ids_witness :
  let own := {| id := "user-1"; name := "n"; rx_pattern := "p";
                description := "d"; category := None |} in
  let st := setFormData
              (handleEditPattern own (setUserPatterns initialLibrary [to_json own]))
              {| form_name := "m"; form_pattern := "q";
                 form_description := "e"; form_category := "" |} in
  entry_ids [to_json {| id := "user-1"; name := "m"; rx_pattern := "q";
                        description := "e"; category := Some "Custom" |}]
    = entry_ids (userPatterns st) /\
  1 = length (userPatterns st).
Proof.
  intros own st.
  apply (save_edit_keeps_ids 0 st
           {| userPatterns :=
                [to_json {| id := "user-1"; name := "m"; rx_pattern := "q";
                            description := "e"; category := Some "Custom" |}];
              isDialogOpen := false; editingPattern := None;
              formData := emptyForm;
              localStorage :=
                Some (JArr [to_json {| id := "user-1"; name := "m";
                                       rx_pattern := "q"; description := "e";
                                       category := Some "Custom" |}]) |}
           own).
  - reflexivity.
  - reflexivity.
Defined.

(** ** Search in the library *)

Lemma prefix_spec t : forall s,
  String.prefix t s = true <-> exists post, chars s = chars t ++ post.
Proof.
  induction t as [|a t IH]; intros s; simpl.
  - split; [by eexists | by destruct s].
  - destruct s as [|b s]; simpl.
    + split; [done | by intros [post H]].
    + destruct (Ascii.ascii_dec a b) as [->|Hne].
      * rewrite IH. split; intros [post H]; exists post; congruence.
      * split; [done|]. intros [post H]. congruence.
Qed.

Lemma includes_spec s t :
  includes s t = true <-> exists pre post, chars s = pre ++ chars t ++ post.
Proof.
  induction s as [|c s IH]; cbn [includes]; rewrite orb_true_iff, prefix_spec.
  - split.
    + intros [[post H]|H]; [|done]. by exists [], post.
    + intros (pre & post & H). left.
      destruct pre; [by exists post|done].
  - rewrite IH. split.
    + intros [[post H]|(pre & post & H)]; [by exists [], post|].
      exists (c :: pre), post. simpl. by rewrite H.
    + intros ([|c' pre] & post & H); [left; by exists post|].
      right. exists pre, post. simpl in H. congruence.
Qed.

Lemma includes_trans s t u :
  includes s t = true -> includes t u = true -> includes s u = true.
Proof.
  rewrite !includes_spec.
  intros (p1 & q1 & H1) (p2 & q2 & H2).
  exists (p1 ++ p2), (q2 ++ q1). rewrite H1, H2. by rewrite <- !app_assoc.
Qed.

Lemma lower_char_idemp c : lower_char (lower_char c) = lower_char c.
Proof. destruct c as [[] [] [] [] [] [] [] []]; reflexivity. Qed.

Lemma toLowerCase_idemp s : toLowerCase (toLowerCase s) = toLowerCase s.
Proof. induction s as [|c s IH]; simpl; [done|]. by rewrite lower_char_idemp, IH. Qed.

Lemma toLowerCase_falsy s : falsy (toLowerCase s) = falsy s.
Proof. by destruct s. Qed.

(** On a record of the [PatternEntry] shape the callback does not throw
    and says whether one of the four fields contains the query. *)
Lemma matches_query_shaped query e :
  entry_shaped e = true -> matches_query query e = Some (entry_hit query e).
Proof.
  destruct e as [| | | | |fields]; try done. simpl.
  rewrite !andb_true_iff. intros [[[[_ Hn] Hx] Hd] Hc].
  unfold matches_query, entry_hit, field_hit. simpl.
  destruct (assoc "name" fields) as [[| | |n| |]|]; try done.
  destruct (assoc "description" fields) as [[| | |d| |]|]; try done.
  destruct (assoc "pattern" fields) as [[| | |x| |]|]; try done.
  simpl.
  destruct (includes (toLowerCase n) query); [done|].
  destruct (includes (toLowerCase d) query); [done|].
  destruct (includes (toLowerCase x) query); [done|]. simpl.
  destruct (assoc "category" fields) as [[| | |c| |]|]; done.
Qed.

Lemma filter_entries_shaped query l :
  Forall (fun e => entry_shaped e = true) l ->
  filter_entries (matches_query query) l =
  Some (filter (fun e => entry_hit query e = true) l).
Proof.
  induction 1 as [|e l He Hl IH]; [done|].
  simpl. rewrite matches_query_shaped, IH by done.
  rewrite filter_cons. by destruct (entry_hit query e).
Qed.

(** X22.  The search keeps everything for an empty query, whatever the
    entries are.  On entries of the [PatternEntry] shape it never throws
    and keeps, in their order, exactly the entries of which the name, the
    description, the pattern or the category contains the query, letter
    case apart: two queries that differ only in letter case give the same
    result. *)
Theorem search_is_case_insensitive :
  (forall allPatterns, filteredPatterns "" allPatterns = Some allPatterns) /\
  (forall searchQuery allPatterns,
     searchQuery <> "" ->
     Forall (fun e => entry_shaped e = true) allPatterns ->
     filteredPatterns searchQuery allPatterns =
     Some (filter (fun e => entry_hit (toLowerCase searchQuery) e = true)
             allPatterns)) /\
  (forall q q' allPatterns,
     toLowerCase q = toLowerCase q' ->
     filteredPatterns q allPatterns = filteredPatterns q' allPatterns).
Proof.
  split; [done|]. split.
  - intros q l Hq Hl. unfold filteredPatterns.
    rewrite (falsy_false _ Hq). by apply filter_entries_shaped.
  - intros q q' l Hqq. unfold filteredPatterns.
    rewrite <- (toLowerCase_falsy q), <- (toLowerCase_falsy q'), Hqq.
    by destruct (falsy _).
Qed.

Lemma search_is_case_insensitive_witness :
  let e := to_json {| id := "email"; name := "Email"; rx_pattern := "@";
                      description := "Mail address";
                      category := Some "Validation" |} in
  filteredPatterns "MAIL" [e] =
    Some (filter (fun e => entry_hit (toLowerCase "MAIL") e = true) [e]) /\
  filteredPatterns "MAIL" [e] = filteredPatterns "mail" [e].
Proof.
  intros e. split.
  - apply (proj1 (proj2 search_is_case_insensitive) "MAIL" [e]).
    + discriminate.
    + repeat constructor.
  - apply (proj2 (proj2 search_is_case_insensitive) "MAIL" "mail" [e]).
    reflexivity.
Defined.

Lemma field_hit_narrow k q q' e :
  includes q' q = true -> field_hit k q' e = true -> field_hit k q e = true.
Proof.
  unfold field_hit. intros Hq.
  destruct (prop e k) as [[[| | |s| |]|]|]; try done.
  intros Hs. by eapply includes_trans.
Qed.

Lemma entry_hit_narrow q q' e :
  includes q' q = true -> entry_hit q' e = true -> entry_hit q e = true.
Proof.
  unfold entry_hit. intros Hq. rewrite !orb_true_iff.
  intros [[[H|H]|H]|H]; eauto using field_hit_narrow.
Qed.

Lemma filter_sublist_narrow (P Q : json -> Prop)
    `{!forall x, Decision (P x)} `{!forall x, Decision (Q x)} l :
  (forall x, P x -> Q x) -> filter P l `sublist_of` filter Q l.
Proof.
  intros HPQ. induction l as [|e l IH]; [done|].
  rewrite !filter_cons.
  destruct (decide (P e)) as [HP|HP], (decide (Q e)) as [HQ|HQ].
  - by apply sublist_skip.
  - by destruct HQ; apply HPQ.
  - by apply sublist_cons.
  - done.
Qed.

(** X23.  Typing more narrows the search: when the longer query contains
    the shorter one (letter case apart), everything the longer query
    finds among entries of the [PatternEntry] shape is also found by the
    shorter one, in the same order. *)
Theorem longer_query_narrows_search :
  forall q q' allPatterns found found',
    Forall (fun e => entry_shaped e = true) allPatterns ->
    includes (toLowerCase q') (toLowerCase q) = true ->
    filteredPatterns q allPatterns = Some found ->
    filteredPatterns q' allPatterns = Some found' ->
    found' `sublist_of` found.
Proof.
  intros q q' l r r' Hl Hinc. unfold filteredPatterns.
  destruct (falsy q') eqn:Hq'.
  - apply falsy_true in Hq' as ->. simpl in Hinc.
    assert (falsy q = true) as ->.
    { rewrite <- toLowerCase_falsy. destruct (toLowerCase q); [done|].
      simpl in Hinc. done. }
    by intros [= <-] [= <-].
  - rewrite !(filter_entries_shaped _ l Hl). intros Hr [= <-].
    destruct (falsy q).
    + injection Hr as <-. apply sublist_filter.
    + injection Hr as <-.
      apply filter_sublist_narrow. intros e. by apply entry_hit_narrow.
Qed.

Lemma longer_query_narrows_search_witness :
  let e1 := to_json {| id := "email"; name := "Email"; rx_pattern := "@";
                       description := "Mail address";
                       category := Some "Validation" |} in
  let e2 := to_json {| id := "ipv4"; name := "IPv4"; rx_pattern := "\d+";
                       description := "An address"; category := None |} in
  [e1] `sublist_of` [e1; e2].
Proof.
  intros e1 e2.
  apply (longer_query_narrows_search "ADDR" "mail addr" [e1; e2]
           [e1; e2] [e1]).
  - repeat constructor.
  - reflexivity.
  - reflexivity.
  - reflexivity.
Defined.

(** ** React keys of the rendered spans *)

Lemma keys_below_mono elements last last' index :
  last <= last' -> keys_below elements last index ->
  keys_below elements last' index.
Proof.
  intros Hle [Hnd Hb]. split; [done|].
  intros sp Hsp. destruct (Hb sp Hsp) as (k & Hk & Hlt).
  exists k. split; [done|]. destruct (span_kind sp); lia.
Qed.

Lemma keys_below_push_plain elements last index txt :
  keys_below elements last index ->
  keys_below
    (elements ++ [{| span_key := Some last; span_kind := Plain;
                     span_text := txt |}]) (S last) index.
Proof.
  intros [Hnd Hb]. split.
  - rewrite fmap_app. apply NoDup_app. split; [done|]. split.
    + intros x Hx Hx'. apply list_elem_of_singleton in Hx'. subst x.
      apply list_elem_of_fmap in Hx as (sp & Hid & Hsp).
      destruct (Hb sp Hsp) as (k & Hk & Hlt).
      unfold span_id in Hid. simpl in Hid. injection Hid as Hkind Hkey.
      rewrite <- Hkind in Hlt. rewrite Hk in Hkey. injection Hkey as ->. lia.
    + apply NoDup_singleton.
  - intros sp [Hsp| ->%list_elem_of_singleton]%elem_of_app.
    + destruct (Hb sp Hsp) as (k & Hk & Hlt).
      exists k. split; [done|]. destruct (span_kind sp); lia.
    + exists last. simpl. split; [done | lia].
Qed.

Lemma keys_below_push_match elements last index txt :
  keys_below elements last index ->
  keys_below
    (elements ++ [{| span_key := Some index; span_kind := Highlighted;
                     span_text := txt |}]) last (S index).
Proof.
  intros [Hnd Hb]. split.
  - rewrite fmap_app. apply NoDup_app. split; [done|]. split.
    + intros x Hx Hx'. apply list_elem_of_singleton in Hx'. subst x.
      apply list_elem_of_fmap in Hx as (sp & Hid & Hsp).
      destruct (Hb sp Hsp) as (k & Hk & Hlt).
      unfold span_id in Hid. simpl in Hid. injection Hid as Hkind Hkey.
      rewrite <- Hkind in Hlt. rewrite Hk in Hkey. injection Hkey as ->. lia.
    + apply NoDup_singleton.
  - intros sp [Hsp| ->%list_elem_of_singleton]%elem_of_app.
    + destruct (Hb sp Hsp) as (k & Hk & Hlt).
      exists k. split; [done|]. destruct (span_kind sp); lia.
    + exists index. simpl. split; [done | lia].
Qed.

Lemma forEach_match_keys s : forall ms index elements last,
  Forall (fun m => startIndex m <= endIndex m) ms ->
  non_overlapping last ms ->
  keys_below elements last index ->
  keys_below (forEach_match s ms index elements last).1
             (forEach_match s ms index elements last).2
             (index + length ms).
Proof.
  induction ms as [|m ms IH]; intros index elements last Hse Hno Hk.
  - simpl. by rewrite Nat.add_0_r.
  - apply Forall_cons in Hse as [Hm Hse]. destruct Hno as [Hlast Hno].
    cbn [forEach_match length].
    replace (index + S (length ms)) with (S index + length ms) by lia.
    apply IH; [done | done |].
    destruct (Nat.ltb_spec last (startIndex m)) as [Hlt|Hge].
    + apply (keys_below_mono _ (S last)); [lia|].
      by apply keys_below_push_match, keys_below_push_plain.
    + apply (keys_below_mono _ last); [lia|].
      by apply keys_below_push_match.
Qed.

(** X24.  The rendered spans have distinct React keys: for a match list
    with ordered indices that is sorted and non-overlapping, no two spans
    of the output agree in both kind and key. *)
Theorem rendered_spans_have_distinct_keys :
  forall sampleText ms,
    Forall (fun m => startIndex m <= endIndex m) ms ->
    non_overlapping 0 ms ->
    NoDup (span_id <$> renderHighlightedText sampleText ms).
Proof.
  intros s ms Hse Hno. unfold renderHighlightedText.
  destruct (falsy s || (length ms =? 0)).
  { simpl. apply NoDup_singleton. }
  assert (Hinit : keys_below [] 0 0).
  { split; [apply NoDup_nil_2|]. intros sp Hsp. by apply elem_of_nil in Hsp. }
  pose proof (forEach_match_keys s ms 0 [] 0 Hse Hno Hinit) as Hk.
  destruct (forEach_match s ms 0 [] 0) as [elements last]. simpl in Hk.
  destruct (last <? String.length s).
  - by apply (keys_below_push_plain _ _ _ (js_substring_from s last)) in Hk
      as [Hnd _].
  - by destruct Hk.
Qed.

Lemma rendered_spans_have_distinct_keys_witness :
  NoDup (span_id <$>
    renderHighlightedText "a12b34"
      [ {| text := "12"; startIndex := 1; endIndex := 3; groups := [] |};
        {| text := "34"; startIndex := 4; endIndex := 6; groups := [] |} ]).
Proof.
  apply rendered_spans_have_distinct_keys.
  - repeat constructor; simpl; lia.
  - simpl. repeat split; lia.
Defined.

(** ** What the test area shows *)

Lemma session_step_inv P ev s s' :
  session_step P ev s = Some s' ->
  ((isValid (ta_state s) = false -> matches (ta_state s) = []) /\
   (is_Some (ta_pending s) -> isValid (ta_state s) = true)) ->
  (isValid (ta_state s') = false -> matches (ta_state s') = []) /\
  (is_Some (ta_pending s') -> isValid (ta_state s') = true).
Proof.
  intros Hstep [Hm Hp]. destruct ev as [i|fuel t0 t1]; simpl in Hstep.
  - injection Hstep as <-. unfold onInputsChange, matchEffect.
    destruct (falsy _ || falsy _).
    { simpl. split; [done|]. by intros [? ?]. }
    destruct (validateRegex P _ _) as [[msg|] log]; simpl.
    + split; [done|]. by intros [? ?].
    + split; [done|done].
  - unfold onTimer in Hstep. destruct (ta_pending s) as [task|] eqn:Htask.
    2:{ injection Hstep as <-. rewrite Htask. split; [done|]. by intros [? ?]. }
    specialize (Hp ltac:(by eexists)).
    destruct (runPending P fuel t0 t1 task (ta_state s)) as [[st lg]|] eqn:Hrun;
      [|done].
    injection Hstep as <-. simpl. split; [|by intros [? ?]].
    unfold runPending in Hrun.
    destruct (new_RegExp P _ _) as [regex|msg].
    + destruct (global (run_flags task)).
      * destruct (match_loop _ _ _ _ _) as [[ms l]|]; [|done].
        injection Hrun as <- _. simpl. congruence.
      * destruct (match_once _ _) as [ms l].
        injection Hrun as <- _. simpl. congruence.
    + by injection Hrun as <- _.
Qed.

(** X25.  An invalid state never carries matches, and a run is pending
    only in a valid state: after any sequence of input changes and timer
    firings from the first render, [isValid] being false means the match
    list is empty.  So the card reporting an invalid pattern and the list
    of match details are never shown together, and neither are that card
    and the results. *)
Theorem invalid_state_shows_no_matches :
  forall P evs s pattern,
    session_run P evs initialSession = Some s ->
    (isValid (ta_state s) = false -> matches (ta_state s) = []) /\
    (is_Some (ta_pending s) -> isValid (ta_state s) = true) /\
    showsInvalidCard pattern (ta_state s) && showsMatchDetails (ta_state s)
      = false /\
    showsInvalidCard pattern (ta_state s) && showsResults pattern (ta_state s)
      = false.
Proof.
  intros P evs s pattern Hrun.
  assert (Hinv : (isValid (ta_state s) = false -> matches (ta_state s) = []) /\
                 (is_Some (ta_pending s) -> isValid (ta_state s) = true)).
  { assert (Hinit : (isValid (ta_state initialSession) = false ->
                     matches (ta_state initialSession) = []) /\
                    (is_Some (ta_pending initialSession) ->
                     isValid (ta_state initialSession) = true)) by done.
    revert Hrun Hinit. generalize initialSession.
    induction evs as [|ev evs IH]; intros s0 Hrun Hinit; simpl in Hrun.
    - by injection Hrun as <-.
    - destruct (session_step P ev s0) as [s1|] eqn:Hstep; [|done].
      apply (IH s1 Hrun). by eapply session_step_inv. }
  destruct Hinv as [Hm Hp]. split; [done|]. split; [done|].
  unfold showsInvalidCard, showsMatchDetails, showsResults.
  destruct (isValid (ta_state s)) eqn:Hv.
  - by rewrite !andb_false_r.
  - rewrite (Hm eq_refl). simpl. by rewrite !andb_false_r.
Qed.

Lemma invalid_state_shows_no_matches_witness :
  let evs :=
    [ InputsChanged {| in_pattern := "b"; in_flags := globalOnly;
                       in_sampleText := "abcb" |};
      TimerFired 6 0 1;
      InputsChanged {| in_pattern := "("; in_flags := globalOnly;
                       in_sampleText := "abcb" |} ] in
  let s := {| ta_state := {| matches := []; executionTime := 1;
                             isValid := false |};
              ta_pending := None |} in
  (isValid (ta_state s) = false -> matches (ta_state s) = []) /\
  (is_Some (ta_pending s) -> isValid (ta_state s) = true) /\
  showsInvalidCard "(" (ta_state s) && showsMatchDetails (ta_state s) = false /\
  showsInvalidCard "(" (ta_state s) && showsResults "(" (ta_state s) = false.
Proof.
  intros evs s.
  apply (invalid_state_shows_no_matches literalPrimitive evs s "(").
  reflexivity.
Defined.

Lemma handleUndo_pattern ed :
  pattern (handleUndo ed) =
  if 0 <? historyIndex ed
  then history_at (history ed) (historyIndex ed - 1)
  else pattern ed.
Proof. unfold handleUndo. by destruct (0 <? historyIndex ed). Qed.

(** X26.  An insertion at a collapsed caret inside the pattern can be
    undone: for a state that keeps the history invariant and a non-empty
    token, the insertion records exactly one new entry right after the
    cursor, and undo shows the pattern as it was before. *)
Theorem insert_can_be_undone :
  forall token ed a,
    cursor_in_range ed ->
    cursor_shows_pattern ed ->
    token <> "" ->
    cursorPosition ed = Some (a, a) \/ cursorPosition ed = None ->
    history (handleInsert token ed) =
      take (historyIndex ed + 1) (history ed) ++ [pattern (handleInsert token ed)] /\
    historyIndex (handleInsert token ed) = historyIndex ed + 1 /\
    pattern (handleUndo (handleInsert token ed)) = pattern ed.
Proof.
  intros token ed a Hr Hs Htok Hcaret.
  set (start := from_option fst (String.length (pattern ed)) (cursorPosition ed)).
  set (end_ := from_option snd (String.length (pattern ed)) (cursorPosition ed)).
  set (newValue := js_substring (pattern ed) 0 start +:+ token +:+
                   js_substring_from (pattern ed) end_).
  assert (Hp : pattern (handleInsert token ed) = newValue).
  { unfold handleInsert. cbn [pattern]. apply handlePatternChange_pattern. }
  assert (Hlen : String.length newValue =
                 String.length (pattern ed) + String.length token).
  { rewrite <- Hp, <- !chars_length, handleInsert_pattern.
    rewrite !length_app, length_take, length_drop, !chars_length.
    destruct Hcaret as [-> | ->]; simpl; lia. }
  unfold cursor_in_range, cursor_shows_pattern in *.
  assert (Hne : history ed !! historyIndex ed <> Some newValue).
  { rewrite Hs. intros [= Heq]. rewrite <- Heq in Hlen.
    destruct token; [done|]. simpl in Hlen. lia. }
  assert (Hl : length (take (historyIndex ed + 1) (history ed) ++ [newValue])
               = historyIndex ed + 2).
  { rewrite length_app, length_take. simpl. lia. }
  assert (Hh : history (handleInsert token ed) =
               take (historyIndex ed + 1) (history ed) ++ [newValue]).
  { change (history (handlePatternChange newValue ed) = 
            take (historyIndex ed + 1) (history ed) ++ [newValue]).
    by rewrite handlePatternChange_new. }
  assert (Hi : historyIndex (handleInsert token ed) = historyIndex ed + 2 - 1).
  { change (historyIndex (handlePatternChange newValue ed) =
            historyIndex ed + 2 - 1).
    rewrite handlePatternChange_new by done. simpl. by rewrite Hl. }
  rewrite Hp, Hh, Hi.
  split; [done|]. split; [lia|].
  rewrite handleUndo_pattern, Hh, Hi.
  destruct (Nat.ltb_spec 0 (historyIndex ed + 2 - 1)); [|lia].
  unfold history_at.
  replace (historyIndex ed + 2 - 1 - 1) with (historyIndex ed) by lia.
  rewrite lookup_app_l by (rewrite length_take; lia).
  rewrite lookup_take_lt by lia. by rewrite Hs.
Qed.

Lemma insert_can_be_undone_witness :
  let ed := {| pattern := "ab"; history := [""; "ab"]; historyIndex := 1;
               cursorPosition := Some (1, 1) |} in
  history (handleInsert "\d" ed) =
    take (1 + 1) [""; "ab"] ++ [pattern (handleInsert "\d" ed)] /\
  historyIndex (handleInsert "\d" ed) = 1 + 1 /\
  pattern (handleUndo (handleInsert "\d" ed)) = "ab".
Proof.
  intros ed. apply (insert_can_be_undone "\d" ed 1).
  - unfold cursor_in_range. simpl. lia.
  - reflexivity.
  - discriminate.
  - left. reflexivity.
Defined.

(** ** The import, with the render that follows *)


Lemma filter_entries_null query l :
  JNull ∈ l -> filter_entries (matches_query query) l = None.
Proof.
  induction l as [|p l IH]; intros Hin; [by apply elem_of_nil in Hin|].
  simpl. apply elem_of_cons in Hin as [<-|Hin]; [done|].
  rewrite IH by done. by destruct (matches_query query p).
Qed.








(** X16.  An import whose array holds [null] is never committed,
    whatever the search box holds: the render of the new list throws, the
    component is unmounted and storage keeps what it held.  With an empty
    search box the same happens for an array that holds an element whose
    [id] is not a string, such as a number or a record without [id]. *)
Theorem unrenderable_import_is_not_committed :
  (forall searchQuery patternsData imported st,
     JNull ∈ imported ->
     importMany searchQuery patternsData (Some (JArr imported)) st =
     (Unmounted (localStorage st), None)) /\
  (forall patternsData imported st e,
     e ∈ imported ->
     (forall s, prop e "id" <> Some (Some (JStr s))) ->
     importMany "" patternsData (Some (JArr imported)) st =
     (Unmounted (localStorage st), None)).
Proof.
  split.
  - intros q pd imported st Hin. unfold importMany, commit. simpl.
    assert (Hall : JNull ∈ allPatterns pd
                     (setUserPatterns st (userPatterns st ++ imported))).
    { unfold allPatterns. simpl. rewrite !elem_of_app. auto. }
    assert (list_renders q (allPatterns pd
              (setUserPatterns st (userPatterns st ++ imported))) = false) as ->;
      [|done].
    unfold list_renders, filteredPatterns.
    destruct (falsy q).
    + assert (forallb grouped (allPatterns pd
                (setUserPatterns st (userPatterns st ++ imported))) = false)
        as ->; [|done].
      apply not_true_is_false. intros Hall'.
      apply list_elem_of_In in Hall.
      by apply (proj1 (forallb_forall _ _) Hall') in Hall.
    + by rewrite filter_entries_null.
  - intros pd imported st e Hin Hid. unfold importMany, commit. simpl.
    assert (Hall : e ∈ allPatterns pd
                     (setUserPatterns st (userPatterns st ++ imported))).
    { unfold allPatterns. simpl. rewrite !elem_of_app. auto. }
    assert (list_renders "" (allPatterns pd
              (setUserPatterns st (userPatterns st ++ imported))) = false) as ->;
      [|done].
    unfold list_renders, filteredPatterns. simpl.
    assert (forallb card_renders (allPatterns pd
              (setUserPatterns st (userPatterns st ++ imported))) = false)
      as ->; [|by rewrite andb_false_r].
    apply not_true_is_false. intros Hall'.
    apply list_elem_of_In in Hall.
    apply (proj1 (forallb_forall _ _) Hall') in Hall.
    unfold card_renders in Hall.
    destruct (prop e "id") as [[[| | |s| |]|]|] eqn:Hp; try done.
    by destruct (Hid s).
Qed.

Lemma unrenderable_import_is_not_committed_witness :
  let good := to_json {| id := "user-7"; name := "n"; rx_pattern := "p";
                         description := "d"; category := None |} in
  let st := setUserPatterns initialLibrary [good] in
  importMany "n" [] (Some (JArr [good; JNull])) st =
    (Unmounted (Some (JArr [good])), None) /\
  importMany "" [] (Some (JArr [good; JNum 42])) st =
    (Unmounted (Some (JArr [good])), None).
Proof.
  intros good st. split.
  - apply (proj1 unrenderable_import_is_not_committed "n" [] [good; JNull] st).
    rewrite !elem_of_cons. auto.
  - apply (proj2 unrenderable_import_is_not_committed [] [good; JNum 42] st
             (JNum 42)).
    + rewrite !elem_of_cons. auto.
    + intros s. discriminate.
Defined.

(** ** The global loop on text with surrogate pairs *)

(** With [lastIndex] inside the pair, a turn of the loop leaves the
    expression as it found it. *)
Lemma x_star_gu_turn :
  loop_body16 (set_lastIndex16 x_star_gu 1) grinningFace =
  (Some {| text16 := []; startIndex16 := 0; endIndex16 := 0; groups16 := [] |},
   set_lastIndex16 x_star_gu 1).
Proof. reflexivity. Qed.

Lemma x_star_gu_spins fuel : forall allMatches,
  match_loop16 fuel (set_lastIndex16 x_star_gu 1) grinningFace allMatches
  = None.
Proof.
  induction fuel as [|fuel IH]; intros allMatches; [done|].
  cbn [match_loop16]. rewrite x_star_gu_turn. apply IH.
Qed.

(** C1.  The global match loop does not terminate for every pattern and
    text.  For [x*] compiled with the flags [g] and [u] and the text made
    of the one character U+1F600, a surrogate pair, the first turn finds
    the empty match at 0 and the guard moves [lastIndex] to 1, one unit
    past the match and inside the pair.  From there every turn is the
    same: in unicode mode the host starts at the lead unit of the pair,
    finds the empty match at 0 again and sets [lastIndex] to 0, and the
    guard puts it back to 1.  So the loop has not exited after any number
    of turns.  Without the [u] flag the same pattern and text end after
    three empty matches, at 0, 1 and 2. *)
Theorem global_loop_spins_on_surrogate_pair :
  let empty_at i :=
    {| text16 := []; startIndex16 := i; endIndex16 := i; groups16 := [] |} in
  loop_body16 x_star_gu grinningFace =
    (Some (empty_at 0), set_lastIndex16 x_star_gu 1) /\
  exec16 (set_lastIndex16 x_star_gu 1) grinningFace =
    (Some {| res16_index := 0; res16_0 := []; res16_captures := [] |},
     set_lastIndex16 x_star_gu 0) /\
  loop_body16 (set_lastIndex16 x_star_gu 1) grinningFace =
    (Some (empty_at 0), set_lastIndex16 x_star_gu 1) /\
  (forall fuel allMatches,
     match_loop16 fuel x_star_gu grinningFace allMatches = None) /\
  match_loop16 4 x_star_g grinningFace [] =
    Some [empty_at 0; empty_at 1; empty_at 2].
Proof.
  intros empty_at. split; [reflexivity|]. split; [reflexivity|].
  split; [reflexivity|]. split; [|reflexivity].
  intros [|fuel] allMatches; [done|].
  cbn [match_loop16].
  change (loop_body16 x_star_gu grinningFace)
    with (Some (empty_at 0), set_lastIndex16 x_star_gu 1).
  apply x_star_gu_spins.
Qed.
